(** * pygreeks: Black-Scholes valuation, autograd Greeks and implied volatility

    A shallow embedding of [pygreeks.py].

    Modelling conventions.
    - Python/torch floating-point scalars are idealised as real numbers
      ([R]); rounding, underflow, infinities and NaN are outside the model.
      The model stands for the code where the code's arithmetic stays
      finite, that is for a positive underlying, strike, expiry and
      volatility. At a volatility or an expiry of 0 the code divides by
      zero in [d_1]: torch then carries an infinity, or a NaN on which
      [Normal.cdf] raises [ValueError], whereas [item] below is total (a
      quotient by 0 is 0 in [R]). The statements that give the value of a
      valuation or of a Greek therefore assume positive inputs, and
      properties that need exact real arithmetic (strict monotonicity,
      strict signs of Greeks) are not stated of the code.
    - A torch tensor is a node of the autograd graph ([tensor]); [item]
      reads its value, [D] is the gradient graph that autograd builds.
    - Python exceptions are values of [exn]; a call returns a [result].
    - [Option] objects live in a store ([heap]) and are passed by
      reference ([loc]); the public operations are state-and-error
      computations over that store.
    - scipy's root finders and py_vollib's closed forms are external
      collaborators: they are the interfaces [RootFinder] and [Vollib],
      and every theorem holds for any implementation of them.
    - [assert] statements are executed (the interpreter runs without -O). *)

From Stdlib Require Import Reals Lra Lia List String Ascii Bool ZArith.
From Stdlib Require Import FunctionalExtensionality.
Import ListNotations.
Local Open Scope R_scope.

(** ** The standard normal distribution, as torch computes it

    [torch.distributions.Normal(loc, scale).cdf(v)] is
    [0.5 * (1 + erf((v - loc) * scale.reciprocal() / sqrt 2))]. *)

Module Normal.

Definition gauss (t : R) : R := exp (- (t * t)).

(** [gauss] is continuous, hence integrable on every segment, in either
    orientation. *)
Definition gauss_integrable (a b : R) : Riemann_integrable gauss a b.
Proof.
  assert (C : continuity gauss).
  { apply derivable_continuous. unfold gauss. intro x. reg. }
  destruct (Rle_dec a b) as [Hab | Hab].
  - apply continuity_implies_RiemannInt; [exact Hab |].
    intros x _. apply C.
  - apply RiemannInt_P1.
    apply continuity_implies_RiemannInt; [lra |].
    intros x _. apply C.
Qed.

(** [gauss_area x] is the integral of [exp (-t^2)] from [0] to [x]. *)
Definition gauss_area (x : R) : R := RiemannInt (gauss_integrable 0 x).

Definition erf (x : R) : R := 2 / sqrt PI * gauss_area x.

Definition cdf (loc scale v : R) : R :=
  0.5 * (1 + erf ((v - loc) * (/ scale) / sqrt 2)).

(** The density of the standard normal distribution. *)
Definition pdf (x : R) : R := exp (- (x * x) / 2) / sqrt (2 * PI).

End Normal.

Definition Phi (x : R) : R := Normal.cdf 0 1 x.

(** ** Python values, exceptions and results *)

Inductive exn : Type :=
| IndexError
| TypeError
| ValueError
| AssertionError
| RuntimeError
| LibraryError (code : nat).   (* anything else an external library raises *)

Inductive result (A : Type) : Type :=
| Ok (a : A)
| Raise (e : exn).

Arguments Ok {A} a.
Arguments Raise {A} e.

Definition rbind {A B : Type} (m : result A) (k : A -> result B) : result B :=
  match m with
  | Ok a => k a
  | Raise e => Raise e
  end.

Declare Scope result_scope.
Delimit Scope result_scope with result.
Notation "x <- m ;; k" := (rbind m (fun x => k))
  (at level 61, m at next level, right associativity) : result_scope.
Notation "' pat <- m ;; k" := (rbind m (fun x => match x with pat => k end))
  (at level 61, pat pattern, m at next level, right associativity) : result_scope.

(** [c.lower()] on a one-character string: the ASCII capitals are the only
    characters that it maps to an ASCII letter. *)
Definition lower (c : ascii) : ascii :=
  let n := nat_of_ascii c in
  if (65 <=? n)%nat && (n <=? 90)%nat then ascii_of_nat (n + 32) else c.

(** [s[0]] *)
Definition str_head (s : string) : result ascii :=
  match s with
  | EmptyString => Raise IndexError
  | String c _ => Ok c
  end.

(** [l[i]], with Python's negative indices. *)
Definition py_getitem {A : Type} (l : list A) (i : Z) : result A :=
  let n := Z.of_nat (List.length l) in
  let j := if (i <? 0)%Z then (i + n)%Z else i in
  if ((0 <=? j)%Z && (j <? n)%Z)%bool then
    match nth_error l (Z.to_nat j) with
    | Some a => Ok a
    | None => Raise IndexError
    end
  else Raise IndexError.

(** Truth value of a float ([if guess:]) and of an optional float
    ([if not option.iv]): [None] and [0.0] are false. *)
Definition truthy (x : R) : bool := if Req_dec_T x 0 then false else true.

Definition truthy_opt (x : option R) : bool :=
  match x with
  | None => false
  | Some v => truthy v
  end.

(** ** Torch: tensors as autograd graphs *)

Module Torch.

Inductive tensor : Type :=
| Leaf (id : nat) (value : R) (requires_grad : bool)   (* torch.tensor([v], requires_grad=b) *)
| Const (c : R)                                        (* a Python number or a detached tensor *)
| Add (a b : tensor)
| Sub (a b : tensor)
| Mul (a b : tensor)
| Div (a b : tensor)
| Neg (a : tensor)
| Pow (a : tensor) (n : nat)
| Log (a : tensor)
| Exp (a : tensor)
| Sqrt (a : tensor)
| Cdf (a : tensor).                                    (* Normal(0, 1).cdf *)

(** [t.item()], on the graphs whose operations stay finite: a divisor that
    is not 0, a positive argument of [Log] and [Sqrt]. *)
Fixpoint item (t : tensor) : R :=
  match t with
  | Leaf _ v _ => v
  | Const c => c
  | Add a b => item a + item b
  | Sub a b => item a - item b
  | Mul a b => item a * item b
  | Div a b => item a / item b
  | Neg a => - item a
  | Pow a n => item a ^ n
  | Log a => ln (item a)
  | Exp a => exp (item a)
  | Sqrt a => sqrt (item a)
  | Cdf a => Phi (item a)
  end.

(** [t.requires_grad]: some leaf below [t] is tracked. *)
Fixpoint requires_grad (t : tensor) : bool :=
  match t with
  | Leaf _ _ b => b
  | Const _ => false
  | Add a b | Sub a b | Mul a b | Div a b => requires_grad a || requires_grad b
  | Neg a | Pow a _ | Log a | Exp a | Sqrt a | Cdf a => requires_grad a
  end.

(** The density graph that the backward rule of [Cdf] multiplies by. *)
Definition Pdf (a : tensor) : tensor :=
  Div (Exp (Div (Neg (Mul a a)) (Const 2))) (Sqrt (Const (2 * PI))).

(** The gradient graph of [t] with respect to the leaf [x]. *)
Fixpoint D (x : nat) (t : tensor) : tensor :=
  match t with
  | Leaf id _ _ => if Nat.eqb id x then Const 1 else Const 0
  | Const _ => Const 0
  | Add a b => Add (D x a) (D x b)
  | Sub a b => Sub (D x a) (D x b)
  | Mul a b => Add (Mul (D x a) b) (Mul a (D x b))
  | Div a b => Div (Sub (Mul (D x a) b) (Mul a (D x b))) (Mul b b)
  | Neg a => Neg (D x a)
  | Pow a n => Mul (Mul (Const (INR n)) (Pow a (pred n))) (D x a)
  | Log a => Div (D x a) a
  | Exp a => Mul (Exp a) (D x a)
  | Sqrt a => Div (D x a) (Mul (Const 2) (Sqrt a))
  | Cdf a => Mul (Pdf a) (D x a)
  end.

(** [out.backward()]: fails when nothing below [out] is tracked. *)
Definition backward (out : tensor) : result unit :=
  if requires_grad out then Ok tt else Raise RuntimeError.

(** [torch.autograd.grad(out, x, create_graph=True)] *)
Definition autograd_grad (out x : tensor) : result tensor :=
  match x with
  | Leaf id _ true => if requires_grad out then Ok (D id out) else Raise RuntimeError
  | _ => Raise RuntimeError
  end.

(** *** Notions used to state what autograd computes *)

(** The graph [t] with the value [y] stored in the leaf [x]. *)
Fixpoint set_leaf (x : nat) (y : R) (t : tensor) : tensor :=
  match t with
  | Leaf id v b => if Nat.eqb id x then Leaf id y b else Leaf id v b
  | Const c => Const c
  | Add a b => Add (set_leaf x y a) (set_leaf x y b)
  | Sub a b => Sub (set_leaf x y a) (set_leaf x y b)
  | Mul a b => Mul (set_leaf x y a) (set_leaf x y b)
  | Div a b => Div (set_leaf x y a) (set_leaf x y b)
  | Neg a => Neg (set_leaf x y a)
  | Pow a n => Pow (set_leaf x y a) n
  | Log a => Log (set_leaf x y a)
  | Exp a => Exp (set_leaf x y a)
  | Sqrt a => Sqrt (set_leaf x y a)
  | Cdf a => Cdf (set_leaf x y a)
  end.

(** Every leaf [x] of [t] stores [v]. *)
Fixpoint leaf_at (x : nat) (v : R) (t : tensor) : Prop :=
  match t with
  | Leaf id w _ => id = x -> w = v
  | Const _ => True
  | Add a b | Sub a b | Mul a b | Div a b => leaf_at x v a /\ leaf_at x v b
  | Neg a | Pow a _ | Log a | Exp a | Sqrt a | Cdf a => leaf_at x v a
  end.

(** Every operation of [t] is applied where it is differentiable. *)
Fixpoint smooth (t : tensor) : Prop :=
  match t with
  | Leaf _ _ _ | Const _ => True
  | Add a b | Sub a b | Mul a b => smooth a /\ smooth b
  | Div a b => smooth a /\ smooth b /\ item b <> 0
  | Neg a | Pow a _ | Exp a | Cdf a => smooth a
  | Log a | Sqrt a => smooth a /\ 0 < item a
  end.

End Torch.
Import Torch.

(** A value a Python name can hold here. *)
Inductive pyobj : Type :=
| PyNone
| PyFloat (x : R)
| PyTensor (t : tensor).

(** [x.grad] after [out.backward()] succeeded, [x.grad] being [None] before:
    only tracked leaves receive a gradient. *)
Definition grad (out x : tensor) : pyobj :=
  match x with
  | Leaf id _ true => PyTensor (Const (item (D id out)))
  | _ => PyNone
  end.

(** [- v] and [v / c] for a Python float [c]. *)
Definition py_neg (v : pyobj) : result pyobj :=
  match v with
  | PyNone => Raise TypeError
  | PyFloat x => Ok (PyFloat (- x))
  | PyTensor t => Ok (PyTensor (Neg t))
  end.

Definition py_div (v : pyobj) (c : R) : result pyobj :=
  match v with
  | PyNone => Raise TypeError
  | PyFloat x => Ok (PyFloat (x / c))
  | PyTensor t => Ok (PyTensor (Div t (Const c)))
  end.

(** ** pygreeks: records *)

Definition BASE_RATE : R := 7 / 10000.

Definition unwrap (t : pyobj) : pyobj :=
  match t with
  | PyTensor x => PyFloat (item x)
  | _ => t
  end.

Record Greeks : Type := mkGreeks {
  theta : pyobj;
  delta : pyobj;
  gamma : pyobj;
  vega : pyobj
}.

(** The dataclass constructor followed by [__post_init__]. *)
Definition Greeks_ (theta delta gamma vega : pyobj) : Greeks :=
  mkGreeks (unwrap theta) (unwrap delta) (unwrap gamma) (unwrap vega).

Record Option_ : Type := mkOption {
  kind : string;
  underlying : R;
  strike : R;
  expiry : R;
  iv : option R;
  npv : option R;
  greeks : option Greeks
}.

(** ** pygreeks: valuation and autograd Greeks *)

Local Open Scope result_scope.

(** The only exception modelled is that of [kind[0]] on an empty kind. On
    inputs that make [d_1] or [d_2] a NaN (an expiry of 0 with [S = K], a
    negative underlying) torch's [cdf] raises [ValueError]; such inputs are
    outside the model, and the statements that give the value returned here
    assume positive inputs. *)
Definition blackScholes_pyTorch (kind : string)
    (S_0 strike time_to_expiry implied_vol riskfree_rate : tensor) : result tensor :=
  let S := S_0 in
  let K := strike in
  let dt := time_to_expiry in
  let sigma := implied_vol in
  let r := riskfree_rate in
  let d_1 :=
    Div (Add (Log (Div S_0 K)) (Mul (Add r (Div (Pow sigma 2) (Const 2))) dt))
        (Mul sigma (Sqrt dt)) in
  let d_2 := Sub d_1 (Mul sigma (Sqrt dt)) in
  c <- str_head kind ;;
  if Ascii.eqb (lower c) "c" then
    Ok (Sub (Mul S (Cdf d_1)) (Mul (Mul K (Exp (Mul (Neg r) dt))) (Cdf d_2)))
  else
    Ok (Sub (Mul (Mul K (Exp (Mul (Neg r) dt))) (Cdf (Neg d_2))) (Mul S (Cdf (Neg d_1)))).

Definition optionNPV (kind : string) (s0 k t sigma r : R) : result tensor :=
  let S_0 := Leaf 0 s0 true in
  let K := Leaf 1 k false in
  let T := Leaf 2 t true in
  let Sigma := Leaf 3 sigma true in
  let R_ := Leaf 4 r false in
  blackScholes_pyTorch kind S_0 K T Sigma R_.

Definition deriveGreeks1 (kind : string) (s0 k t sigma r : R)
    : result (tensor * pyobj * pyobj * pyobj) :=
  let S_0 := Leaf 0 s0 true in
  let K := Leaf 1 k false in
  let T := Leaf 2 t true in
  let Sigma := Leaf 3 sigma true in
  let R_ := Leaf 4 r false in
  npv <- blackScholes_pyTorch kind S_0 K T Sigma R_ ;;
  _ <- backward npv ;;
  nT <- py_neg (grad npv T) ;;
  theta <- py_div nT 365.25 ;;
  let delta := grad npv S_0 in
  vega <- py_div (grad npv Sigma) 100 ;;
  Ok (npv, theta, delta, vega).

Definition runForIdx (kind : string) (s0 k t sigma r : R) (i : Z) : result pyobj :=
  let S_0 := Leaf 0 s0 (i =? 0)%Z in
  let K := Leaf 1 k (i =? 1)%Z in
  let T := Leaf 2 t (i =? 2)%Z in
  let Sigma := Leaf 3 sigma (i =? 3)%Z in
  let R_ := Leaf 4 r (i =? 4)%Z in
  let calculateAll := [S_0; K; T; Sigma; R_] in
  npv <- blackScholes_pyTorch kind S_0 K T Sigma R_ ;;
  x <- py_getitem calculateAll i ;;
  gradient <- autograd_grad npv x ;;
  _ <- backward gradient ;;
  if ((i =? 0) || (i =? 3))%Z then Ok (grad gradient x)
  else if (i =? 1)%Z then py_div (grad gradient T) 365.25
  else if (i =? 2)%Z then py_div (grad gradient Sigma) (100 * 365.25)
  else if (i =? 4)%Z then Ok (grad gradient Sigma)
  else Ok PyNone.

Fixpoint py_map {A B : Type} (f : A -> result B) (l : list A) : result (list B) :=
  match l with
  | [] => Ok []
  | a :: l' => b <- f a ;; bs <- py_map f l' ;; Ok (b :: bs)
  end.

Definition deriveGreeks2 (kind : string) (s0 k t sigma r : R) (which : list Z)
    : result (list pyobj) :=
  py_map (runForIdx kind s0 k t sigma r) which.

(** The default argument [which=[0]]. *)
Definition which_default : list Z := [0%Z].

(** ** The store of [Option] objects and the monad of the public operations *)

Definition loc : Type := nat.
Definition heap : Type := loc -> Option_.

Definition M (A : Type) : Type := heap -> heap * result A.

Definition ret {A : Type} (a : A) : M A := fun h => (h, Ok a).

Definition bind {A B : Type} (m : M A) (k : A -> M B) : M B :=
  fun h =>
    match m h with
    | (h', Ok a) => k a h'
    | (h', Raise e) => (h', Raise e)
    end.

Definition lift {A : Type} (r : result A) : M A := fun h => (h, r).

(** [try: body / except: handler] with a bare [except]: every exception is
    caught, and what [body] wrote before raising stays written. *)
Definition try_except {A : Type} (body handler : M A) : M A :=
  fun h =>
    match body h with
    | (h', Ok a) => (h', Ok a)
    | (h', Raise _) => handler h'
    end.

Definition py_assert (b : bool) : M unit :=
  lift (if b then Ok tt else Raise AssertionError).

Declare Scope heap_scope.
Delimit Scope heap_scope with heap.
Bind Scope heap_scope with M.
Notation "x <- m ;; k" := (bind m (fun x => k))
  (at level 61, m at next level, right associativity) : heap_scope.
Notation "m1 ;;; m2" := (bind m1 (fun _ => m2))
  (at level 61, right associativity) : heap_scope.
Notation "' pat <- m ;; k" := (bind m (fun x => match x with pat => k end))
  (at level 61, pat pattern, m at next level, right associativity) : heap_scope.

Definition upd (h : heap) (p : loc) (o : Option_) : heap :=
  fun q => if Nat.eqb q p then o else h q.

(** Reading the object behind a reference, and the three attribute
    assignments the module performs. *)
Definition get (p : loc) : M Option_ := fun h => (h, Ok (h p)).

Definition with_iv (o : Option_) (v : option R) : Option_ :=
  mkOption (kind o) (underlying o) (strike o) (expiry o) v (npv o) (greeks o).

Definition with_npv (o : Option_) (v : option R) : Option_ :=
  mkOption (kind o) (underlying o) (strike o) (expiry o) (iv o) v (greeks o).

Definition with_greeks (o : Option_) (g : option Greeks) : Option_ :=
  mkOption (kind o) (underlying o) (strike o) (expiry o) (iv o) (npv o) g.

Definition set_iv (p : loc) (v : option R) : M unit :=
  fun h => (upd h p (with_iv (h p) v), Ok tt).

Definition set_npv (p : loc) (v : option R) : M unit :=
  fun h => (upd h p (with_npv (h p) v), Ok tt).

Definition set_greeks (p : loc) (g : option Greeks) : M unit :=
  fun h => (upd h p (with_greeks (h p) g), Ok tt).

(** [float(x)] for an attribute that may hold [None]. *)
Definition float_ (x : option R) : result R :=
  match x with
  | Some v => Ok v
  | None => Raise TypeError
  end.

(** [(gamma,) = xs] *)
Definition unpack1 {A : Type} (xs : list A) : result A :=
  match xs with
  | [a] => Ok a
  | _ => Raise ValueError
  end.

(** ** External collaborators *)

(** scipy.optimize: the callback may raise, and so may the solver. *)
Class RootFinder : Type := {
  brentq : (R -> result R) -> R -> R -> result R;
  newton : (R -> result R) -> R -> result R
}.

(** py_vollib: [implied_volatility(price, S, K, t, r, flag)] and the
    analytical Greeks [(flag, S, K, t, r, sigma)]. *)
Class Vollib : Type := {
  implied_volatility : option R -> R -> R -> R -> R -> ascii -> result R;
  bs_ga_theta : ascii -> R -> R -> R -> R -> option R -> result R;
  bs_ga_delta : ascii -> R -> R -> R -> R -> option R -> result R;
  bs_ga_vega : ascii -> R -> R -> R -> R -> option R -> result R;
  bs_ga_gamma : ascii -> R -> R -> R -> R -> option R -> result R
}.

(** ** pygreeks: implied volatility and the two entry points *)

(** The closure [findIV] of [ivFromOptionAuto]; nothing is assigned to the
    option while a root finder runs, so it reads the object [o] found in
    the store when the solver is called. It stands for the code's closure
    at a positive [iv]; at the lower end [iv = 0] of the bracket [d_1]
    divides by zero, and the statements below give its value at a positive
    [iv] only. *)
Definition findIV (o : Option_) (iv : R) : result R :=
  (t <- optionNPV (kind o) (underlying o) (strike o) (expiry o) iv BASE_RATE ;;
   let v := item t in
   match npv o with
   | Some q => Ok (v - q)
   | None => Raise TypeError
   end)%result.

Local Open Scope heap_scope.

Definition ivFromOptionAuto `{RootFinder} (opt : loc) (guess : R) : M (option R) :=
  (if truthy guess then
     o <- get opt ;;
     v <- lift (newton (findIV o) guess) ;;
     set_iv opt (Some v)
   else
     try_except
       (o <- get opt ;;
        v <- lift (brentq (findIV o) 0 5000) ;;
        set_iv opt (Some v))
       (set_iv opt (Some 0))) ;;;
  o <- get opt ;;
  ret (iv o).

Definition ivFromOptionFast `{RootFinder} `{Vollib} (opt : loc) : M (option R) :=
  try_except
    (o <- get opt ;;
     c <- lift (str_head (kind o)) ;;
     v <- lift (implied_volatility (npv o) (underlying o) (strike o) (expiry o)
                  BASE_RATE (lower c)) ;;
     set_iv opt (Some v))
    (v <- ivFromOptionAuto opt 0 ;;
     set_iv opt v) ;;;
  o <- get opt ;;
  ret (iv o).

Definition optionGreeksAuto `{RootFinder} (opt : loc) (calculateNPV : bool) : M loc :=
  o <- get opt ;;
  (if negb (truthy_opt (iv o)) then
     py_assert (truthy_opt (npv o)) ;;;
     _ <- ivFromOptionAuto opt 0 ;;
     ret tt
   else ret tt) ;;;
  o <- get opt ;;
  sigma <- lift (float_ (iv o)) ;;
  '(npv, theta, delta, vega) <-
     lift (deriveGreeks1 (kind o) (underlying o) (strike o) (expiry o) sigma BASE_RATE) ;;
  gs <- lift (deriveGreeks2 (kind o) (underlying o) (strike o) (expiry o) sigma BASE_RATE
                which_default) ;;
  gamma <- lift (unpack1 gs) ;;
  let greeks := Greeks_ theta delta gamma vega in
  (if calculateNPV then set_npv opt (Some (item npv)) else ret tt) ;;;
  set_greeks opt (Some greeks) ;;;
  ret opt.

Definition optionGreeksFast `{RootFinder} `{Vollib} (opt : loc) (calculateNPV : bool)
    : M loc :=
  o <- get opt ;;
  (if negb (truthy_opt (iv o)) then
     py_assert (truthy_opt (npv o)) ;;;
     _ <- ivFromOptionFast opt ;;
     ret tt
   else ret tt) ;;;
  (if calculateNPV then
     try_except
       (o <- get opt ;;
        sigma <- lift (float_ (iv o)) ;;
        npv <- lift (optionNPV (kind o) (underlying o) (strike o) (expiry o) sigma
                       BASE_RATE) ;;
        set_npv opt (Some (item npv)))
       (ret tt)
   else ret tt) ;;;
  o <- get opt ;;
  c <- lift (str_head (kind o)) ;;
  let flag := lower c in
  py_assert (Ascii.eqb flag "c" || Ascii.eqb flag "p") ;;;
  theta <- lift (bs_ga_theta flag (underlying o) (strike o) (expiry o) BASE_RATE (iv o)) ;;
  delta <- lift (bs_ga_delta flag (underlying o) (strike o) (expiry o) BASE_RATE (iv o)) ;;
  vega <- lift (bs_ga_vega flag (underlying o) (strike o) (expiry o) BASE_RATE (iv o)) ;;
  gamma <- lift (bs_ga_gamma flag (underlying o) (strike o) (expiry o) BASE_RATE (iv o)) ;;
  let greeks := Greeks_ (PyFloat theta) (PyFloat delta) (PyFloat gamma) (PyFloat vega) in
  set_greeks opt (Some greeks) ;;;
  ret opt.

(** ** The valuation formula as the specification words it *)

Module Formula.

Definition d1 (S K T sigma r : R) : R :=
  (ln (S / K) + (r + sigma ^ 2 / 2) * T) / (sigma * sqrt T).

Definition d2 (S K T sigma r : R) : R :=
  d1 S K T sigma r - sigma * sqrt T.

Definition call (S K T sigma r : R) : R :=
  S * Phi (d1 S K T sigma r) - K * exp (- (r * T)) * Phi (d2 S K T sigma r).

Definition put (S K T sigma r : R) : R :=
  K * exp (- (r * T)) * Phi (- d2 S K T sigma r) - S * Phi (- d1 S K T sigma r).

(** The value of either kind. *)
Definition npv (is_call : bool) (S K T sigma r : R) : R :=
  if is_call then call S K T sigma r else put S K T sigma r.

End Formula.

(** ** Auxiliary definitions of the proofs *)

(** The graph built for a call ([is_call = true]) or a put. *)
Definition bs_graph (is_call : bool) (tS tK tT tV tR : tensor) : tensor :=
  let d_1 :=
    Div (Add (Log (Div tS tK)) (Mul (Add tR (Div (Pow tV 2) (Const 2))) tT))
        (Mul tV (Sqrt tT)) in
  let d_2 := Sub d_1 (Mul tV (Sqrt tT)) in
  if is_call then
    Sub (Mul tS (Cdf d_1)) (Mul (Mul tK (Exp (Mul (Neg tR) tT))) (Cdf d_2))
  else
    Sub (Mul (Mul tK (Exp (Mul (Neg tR) tT))) (Cdf (Neg d_2))) (Mul tS (Cdf (Neg d_1))).

(** The graph over the five input leaves, in the order of [calculateAll]. *)
Definition bs_leaves (b bS bK bT bV bR : bool) (s k t v q : R) : tensor :=
  bs_graph b (Leaf 0 s bS) (Leaf 1 k bK) (Leaf 2 t bT) (Leaf 3 v bV) (Leaf 4 q bR).

(** What the bracketed search leaves in [iv]: the root, or the sentinel 0. *)
Definition bracketed_iv `{RootFinder} (o : Option_) : R :=
  match brentq (findIV o) 0 5000 with
  | Ok s => s
  | Raise _ => 0
  end.

(** The call that [ivFromOptionFast] makes inside its [try]. *)
Definition fast_call `{Vollib} (o : Option_) : result R :=
  (c <- str_head (kind o) ;;
   implied_volatility (npv o) (underlying o) (strike o) (expiry o) BASE_RATE (lower c))%result.

(** What the analytical inversion, with its fallback, leaves in [iv]. *)
Definition fast_iv `{RootFinder} `{Vollib} (o : Option_) : R :=
  match fast_call o with
  | Ok v => v
  | Raise _ => bracketed_iv o
  end.

(** What each entry point does once [iv] is known. *)
Definition auto_body (opt : loc) (calculateNPV : bool) : M loc :=
  (o <- get opt ;;
   sigma <- lift (float_ (iv o)) ;;
   '(npv, theta, delta, vega) <-
      lift (deriveGreeks1 (kind o) (underlying o) (strike o) (expiry o) sigma BASE_RATE) ;;
   gs <- lift (deriveGreeks2 (kind o) (underlying o) (strike o) (expiry o) sigma BASE_RATE
                 which_default) ;;
   gamma <- lift (unpack1 gs) ;;
   let greeks := Greeks_ theta delta gamma vega in
   (if calculateNPV then set_npv opt (Some (item npv)) else ret tt) ;;;
   set_greeks opt (Some greeks) ;;;
   ret opt)%heap.

Definition fast_revalue (opt : loc) (calculateNPV : bool) : M unit :=
  (if calculateNPV then
     try_except
       (o <- get opt ;;
        sigma <- lift (float_ (iv o)) ;;
        npv <- lift (optionNPV (kind o) (underlying o) (strike o) (expiry o) sigma
                       BASE_RATE) ;;
        set_npv opt (Some (item npv)))
       (ret tt)
   else ret tt)%heap.

Definition fast_greeks `{Vollib} (opt : loc) : M loc :=
  (o <- get opt ;;
   c <- lift (str_head (kind o)) ;;
   let flag := lower c in
   py_assert (Ascii.eqb flag "c" || Ascii.eqb flag "p") ;;;
   theta <- lift (bs_ga_theta flag (underlying o) (strike o) (expiry o) BASE_RATE (iv o)) ;;
   delta <- lift (bs_ga_delta flag (underlying o) (strike o) (expiry o) BASE_RATE (iv o)) ;;
   vega <- lift (bs_ga_vega flag (underlying o) (strike o) (expiry o) BASE_RATE (iv o)) ;;
   gamma <- lift (bs_ga_gamma flag (underlying o) (strike o) (expiry o) BASE_RATE (iv o)) ;;
   let greeks := Greeks_ (PyFloat theta) (PyFloat delta) (PyFloat gamma) (PyFloat vega) in
   set_greeks opt (Some greeks) ;;;
   ret opt)%heap.

(** The fields that describe the contract. *)
Definition same_contract (o o' : Option_) : Prop :=
  kind o' = kind o /\ underlying o' = underlying o /\
  strike o' = strike o /\ expiry o' = expiry o.

(** [h'] differs from [h] at most in the [iv], [npv] and [greeks] of the
    object at [p]. *)
Definition frame (p : loc) (h h' : heap) : Prop :=
  same_contract (h p) (h' p) /\ forall q, q <> p -> h' q = h q.

(** [m] respects the frame of [p], and what it returns satisfies [post] in
    the store it leaves. *)
Definition framed {A : Type} (p : loc) (post : heap -> A -> Prop) (m : M A) : Prop :=
  forall h, frame p h (fst (m h)) /\ forall a, snd (m h) = Ok a -> post (fst (m h)) a.

Definition anything {A : Type} : heap -> A -> Prop := fun _ _ => True.

(** Collaborators and a store to run the operations on concrete inputs: a
    root finder that finds no bracket, and an analytical library whose
    inversion reports a price below intrinsic value. *)
Definition no_root : RootFinder :=
  {| brentq := fun _ _ _ => Raise ValueError;
     newton := fun _ _ => Raise RuntimeError |}.

Definition below_intrinsic : Vollib :=
  {| implied_volatility := fun _ _ _ _ _ _ => Raise (LibraryError 0);
     bs_ga_theta := fun _ _ _ _ _ _ => Ok 0;
     bs_ga_delta := fun _ _ _ _ _ _ => Ok 0;
     bs_ga_vega := fun _ _ _ _ _ _ => Ok 0;
     bs_ga_gamma := fun _ _ _ _ _ _ => Ok 0 |}.

Definition sample (kind : string) (iv npv : option R) : heap :=
  fun _ => mkOption kind 100 100 1 iv npv None.



(** ** Auxiliary definitions of the further properties *)

(** The graph of [d_1] inside [blackScholes_pyTorch]. *)
Definition d1_graph (tS tK tT tV tR : tensor) : tensor :=
  Div (Add (Log (Div tS tK)) (Mul (Add tR (Div (Pow tV 2) (Const 2))) tT))
      (Mul tV (Sqrt tT)).

(** [kind[0].lower() == "c"], for a non-empty kind. *)
Definition is_call (kind : string) : bool :=
  match kind with
  | EmptyString => false
  | String ch _ => Ascii.eqb (lower ch) "c"
  end.

(** The indices that [runForIdx] serves. *)
Definition served (i : Z) : Prop := i = 0%Z \/ i = 3%Z \/ i = 4%Z.

(** The Greeks that the exact entry point stores. *)
Definition auto_greeks (b : bool) (S K T sigma r : R) : Greeks :=
  let g := bs_leaves b true false true true false S K T sigma r in
  let g0 := bs_leaves b true false false false false S K T sigma r in
  mkGreeks (PyFloat (- item (D 2 g) / 365.25))
           (PyFloat (item (D 0 g)))
           (PyFloat (item (D 0 (D 0 g0))))
           (PyFloat (item (D 3 g) / 100)).

(** The record that the exact entry point leaves when [iv] holds [sigma]. *)
Definition auto_record (o : Option_) (calculateNPV : bool) (sigma : R) : Option_ :=
  let b := is_call (kind o) in
  mkOption (kind o) (underlying o) (strike o) (expiry o) (iv o)
    (if calculateNPV
     then Some (Formula.npv b (underlying o) (strike o) (expiry o) sigma BASE_RATE)
     else npv o)
    (Some (auto_greeks b (underlying o) (strike o) (expiry o) sigma BASE_RATE)).

(** What the exact entry point does to the record once [iv] is known: the
    new record, or the exception of [float(None)] or of [kind[0]]. *)
Definition auto_outcome (o : Option_) (calculateNPV : bool) : result Option_ :=
  (sigma <- float_ (iv o) ;;
   _ <- str_head (kind o) ;;
   Ok (auto_record o calculateNPV sigma))%result.

(** The record after the revaluation step of the fast entry point. *)
Definition revalued (o : Option_) (calculateNPV : bool) : Option_ :=
  if calculateNPV then
    match (sigma <- float_ (iv o) ;;
           optionNPV (kind o) (underlying o) (strike o) (expiry o) sigma BASE_RATE)%result
    with
    | Ok t => with_npv o (Some (item t))
    | Raise _ => o
    end
  else o.

(** The four calls to the analytical library, in the order the fast entry
    point makes them. *)
Definition vollib_greeks `{Vollib} (flag : ascii) (o : Option_) : result Greeks :=
  (theta <- bs_ga_theta flag (underlying o) (strike o) (expiry o) BASE_RATE (iv o) ;;
   delta <- bs_ga_delta flag (underlying o) (strike o) (expiry o) BASE_RATE (iv o) ;;
   vega <- bs_ga_vega flag (underlying o) (strike o) (expiry o) BASE_RATE (iv o) ;;
   gamma <- bs_ga_gamma flag (underlying o) (strike o) (expiry o) BASE_RATE (iv o) ;;
   Ok (mkGreeks (PyFloat theta) (PyFloat delta) (PyFloat gamma) (PyFloat vega)))%result.

(** The last step of the fast entry point: the flag, its check, the
    library. *)
Definition fast_outcome `{Vollib} (o : Option_) : result Greeks :=
  (c <- str_head (kind o) ;;
   _ <- (if (Ascii.eqb (lower c) "c" || Ascii.eqb (lower c) "p")%bool
         then Ok tt else Raise AssertionError) ;;
   vollib_greeks (lower c) o)%result.

(** More collaborators for concrete runs: a root finder that answers [s],
    an analytical library that inverts to [s], and one whose last Greek
    fails. *)
Definition fixed_root (s : R) : RootFinder :=
  {| brentq := fun _ _ _ => Ok s;
     newton := fun _ _ => Ok s |}.

Definition exact_vollib (s : R) : Vollib :=
  {| implied_volatility := fun _ _ _ _ _ _ => Ok s;
     bs_ga_theta := fun _ _ _ _ _ _ => Ok 0;
     bs_ga_delta := fun _ _ _ _ _ _ => Ok 0;
     bs_ga_vega := fun _ _ _ _ _ _ => Ok 0;
     bs_ga_gamma := fun _ _ _ _ _ _ => Ok 0 |}.

Definition no_greeks : Vollib :=
  {| implied_volatility := fun _ _ _ _ _ _ => Ok (1 / 5);
     bs_ga_theta := fun _ _ _ _ _ _ => Ok 0;
     bs_ga_delta := fun _ _ _ _ _ _ => Ok 0;
     bs_ga_vega := fun _ _ _ _ _ _ => Ok 0;
     bs_ga_gamma := fun _ _ _ _ _ _ => Raise (LibraryError 1) |}.

(** * Properties *)

(** ** The model on concrete inputs *)

Example lower_capital : lower "C" = "c"%char /\ lower "p" = "p"%char /\ lower "[" = "["%char.
Proof. repeat split. Qed.

Example getitem_last : py_getitem [10%Z; 20%Z; 30%Z] (-1) = Ok 30%Z.
Proof. reflexivity. Qed.

Example getitem_out_of_range : py_getitem [10%Z; 20%Z; 30%Z] 3 = Raise IndexError.
Proof. reflexivity. Qed.

Example empty_kind_raises (tS tK tT tV tR : tensor) :
  blackScholes_pyTorch "" tS tK tT tV tR = Raise IndexError.
Proof. reflexivity. Qed.

Example no_index_no_pass (s0 k t sigma r : R) :
  deriveGreeks2 "call" s0 k t sigma r [] = Ok [].
Proof. reflexivity. Qed.

Example index_past_the_end (s0 k t sigma r : R) :
  deriveGreeks2 "call" s0 k t sigma r [5%Z] = Raise IndexError.
Proof. reflexivity. Qed.

Example untracked_last_index (s0 k t sigma r : R) :
  deriveGreeks2 "call" s0 k t sigma r [(-1)%Z] = Raise RuntimeError.
Proof. reflexivity. Qed.

(** ** The normal distribution *)

Module NormalFacts.
Import Normal.

Lemma gauss_continuity : continuity gauss.
Proof. apply derivable_continuous. unfold gauss. intro x. reg. Qed.

Lemma gauss_area_chasles (a z : R) :
  gauss_area z =
  RiemannInt (gauss_integrable a z) - RiemannInt (gauss_integrable a 0).
Proof.
  unfold gauss_area.
  rewrite <- (RiemannInt_P26 (gauss_integrable a 0) (gauss_integrable 0 z)
                (gauss_integrable a z)).
  ring.
Qed.

(** Fundamental theorem of calculus for [gauss_area], on the whole line. *)
Lemma gauss_area_derive (x : R) : derivable_pt_lim gauss_area x (gauss x).
Proof.
  assert (h : x - 1 <= x + 1) by lra.
  assert (C0 : forall y, x - 1 <= y <= x + 1 -> continuity_pt gauss y)
    by (intros y _; apply gauss_continuity).
  pose (c := RiemannInt (gauss_integrable (x - 1) 0)).
  apply (derivable_pt_lim_locally_ext
           (fun z => primitive h (FTC_P1 h C0) z - c) gauss_area x (x - 1) (x + 1)).
  - lra.
  - intros z Hz. rewrite (gauss_area_chasles (x - 1) z). fold c.
    f_equal. unfold primitive.
    destruct (Rle_dec (x - 1) z) as [H1 | H1]; [| lra].
    destruct (Rle_dec z (x + 1)) as [H2 | H2]; [| lra].
    apply RiemannInt_P5.
  - replace (gauss x) with (gauss x - 0) by ring.
    apply (derivable_pt_lim_minus (primitive h (FTC_P1 h C0)) (fun _ => c)).
    + apply RiemannInt_P28. lra.
    + apply derivable_pt_lim_const.
Qed.

Lemma gauss_area_0 : gauss_area 0 = 0.
Proof. unfold gauss_area. apply RiemannInt_P9. Qed.

Lemma gauss_even (t : R) : gauss (- t) = gauss t.
Proof. unfold gauss. f_equal. ring. Qed.

Lemma gauss_area_odd (x : R) : gauss_area (- x) = - gauss_area x.
Proof.
  pose (G := fun y => gauss_area y + gauss_area (- y)).
  assert (dG : forall y, derivable_pt_lim G y 0).
  { intro y. unfold G.
    replace 0 with (gauss y + gauss (- y) * (-1)) by (rewrite gauss_even; ring).
    apply (derivable_pt_lim_plus gauss_area (fun y => gauss_area (- y))).
    - apply gauss_area_derive.
    - apply (derivable_pt_lim_comp Ropp gauss_area).
      + replace (-1) with (- 1) by ring.
        apply derivable_pt_lim_opp, derivable_pt_lim_id.
      + apply gauss_area_derive. }
  assert (pr : derivable G) by (intro y; exists 0; apply dG).
  assert (HG : constant G).
  { apply (null_derivative_1 G pr). intro y.
    apply derive_pt_eq_0, dG. }
  specialize (HG x 0). unfold G in HG.
  rewrite Ropp_0, gauss_area_0 in HG. lra.
Qed.

Lemma erf_odd (x : R) : erf (- x) = - erf x.
Proof. unfold erf. rewrite gauss_area_odd. ring. Qed.

Lemma sqrt2_pos : 0 < sqrt 2.
Proof. apply sqrt_lt_R0. lra. Qed.

Lemma sqrtPI_pos : 0 < sqrt PI.
Proof. apply sqrt_lt_R0, PI_RGT_0. Qed.

End NormalFacts.

Lemma Phi_erf (x : R) : Phi x = 0.5 * (1 + Normal.erf (x / sqrt 2)).
Proof.
  unfold Phi, Normal.cdf. do 3 f_equal. rewrite Rinv_1. lra.
Qed.

(** The symmetry of the normal distribution. *)
Lemma Phi_neg (x : R) : Phi (- x) = 1 - Phi x.
Proof.
  rewrite !Phi_erf.
  replace (- x / sqrt 2) with (- (x / sqrt 2)) by (unfold Rdiv; ring).
  rewrite NormalFacts.erf_odd. lra.
Qed.

Lemma Phi_0 : Phi 0 = 1 / 2.
Proof.
  rewrite Phi_erf. unfold Rdiv at 1. rewrite Rmult_0_l.
  unfold Normal.erf. rewrite NormalFacts.gauss_area_0. lra.
Qed.

(** [Phi] is an antiderivative of the standard normal density. *)
Lemma Phi_derive (x : R) : derivable_pt_lim Phi x (Normal.pdf x).
Proof.
  pose proof NormalFacts.sqrt2_pos as H2.
  pose proof NormalFacts.sqrtPI_pos as HP.
  apply (derivable_pt_lim_ext
           (fun v => 0.5 * (1 + 2 / sqrt PI * Normal.gauss_area (v * / sqrt 2)))).
  { intro z. rewrite Phi_erf. reflexivity. }
  replace (Normal.pdf x)
    with (0.5 * (0 + 2 / sqrt PI * (Normal.gauss (x * / sqrt 2) * (1 * / sqrt 2)))).
  - apply derivable_pt_lim_scal.
    apply (derivable_pt_lim_plus (fun _ => 1)
             (fun v => 2 / sqrt PI * Normal.gauss_area (v * / sqrt 2))).
    + apply derivable_pt_lim_const.
    + apply derivable_pt_lim_scal.
      apply (derivable_pt_lim_comp (fun v => v * / sqrt 2) Normal.gauss_area).
      * apply derivable_pt_lim_scal_right, derivable_pt_lim_id.
      * apply NormalFacts.gauss_area_derive.
  - unfold Normal.pdf, Normal.gauss.
    replace (x * / sqrt 2 * (x * / sqrt 2)) with (x * x / 2).
    + rewrite sqrt_mult by (pose proof PI_RGT_0; lra).
      replace (- (x * x / 2)) with (- (x * x) / 2) by (unfold Rdiv; ring).
      replace 0.5 with (/ 2) by lra.
      field. split; lra.
    + replace 2 with (sqrt 2 * sqrt 2) at 1 by (apply sqrt_def; lra).
      field. lra.
Qed.

(** ** Autograd computes derivatives *)

Module Autograd.

Lemma set_leaf_id (x : nat) (v : R) (t : tensor) :
  leaf_at x v t -> set_leaf x v t = t.
Proof.
  induction t; simpl; intros H;
    try (rewrite IHt1, IHt2 by tauto; reflexivity);
    try (rewrite IHt by assumption; reflexivity);
    try reflexivity.
  destruct (Nat.eqb id x) eqn:E; [| reflexivity].
  apply Nat.eqb_eq in E. rewrite (H E). reflexivity.
Qed.

Lemma leaf_at_set_leaf (x : nat) (y : R) (t : tensor) :
  leaf_at x y (set_leaf x y t).
Proof.
  induction t; simpl; auto.
  destruct (Nat.eqb id x) eqn:E; simpl; intros Hx.
  - reflexivity.
  - apply Nat.eqb_neq in E. contradiction.
Qed.

Lemma D_set_leaf (x x' : nat) (y : R) (t : tensor) :
  D x' (set_leaf x y t) = set_leaf x y (D x' t).
Proof.
  induction t; simpl; rewrite ?IHt, ?IHt1, ?IHt2; try reflexivity.
  destruct (Nat.eqb id x); simpl; destruct (Nat.eqb id x'); reflexivity.
Qed.

Lemma leaf_at_D (x x' : nat) (v : R) (t : tensor) :
  leaf_at x v t -> leaf_at x v (D x' t).
Proof.
  induction t; simpl; try tauto.
  destruct (Nat.eqb id x'); simpl; trivial.
Qed.

Lemma smooth_D (x : nat) (t : tensor) : smooth t -> smooth (D x t).
Proof.
  pose proof PI_RGT_0 as HPI.
  assert (HsPI : 0 < sqrt (2 * PI)) by (apply sqrt_lt_R0; lra).
  induction t; simpl; try tauto.
  - destruct (Nat.eqb id x); simpl; trivial.
  - intros (Ha & Hb & Hn).
    assert (item t2 * item t2 <> 0)
      by (apply Rmult_integral_contrapositive; split; assumption).
    tauto.
  - intros [Ha Hp]. assert (item t <> 0) by lra. tauto.
  - intros [Ha Hp]. pose proof (sqrt_lt_R0 _ Hp).
    assert (2 * sqrt (item t) <> 0) by lra. tauto.
  - intros Ha. assert (2 <> 0) by lra. assert (sqrt (2 * PI) <> 0) by lra.
    assert (0 < 2 * PI) by lra. tauto.
Qed.

(** The value of the gradient graph is the derivative of the value of the
    graph, as a function of what the leaf [x] stores. *)
Theorem D_correct (x : nat) (v : R) (t : tensor) :
  smooth t -> leaf_at x v t ->
  derivable_pt_lim (fun y => item (set_leaf x y t)) v (item (D x t)).
Proof.
  induction t; simpl; intros Hs Hl.
  - destruct (Nat.eqb id x); simpl.
    + apply derivable_pt_lim_id.
    + apply derivable_pt_lim_const.
  - apply derivable_pt_lim_const.
  - destruct Hs, Hl.
    apply (derivable_pt_lim_plus (fun y => item (set_leaf x y t1))
             (fun y => item (set_leaf x y t2))); auto.
  - destruct Hs, Hl.
    apply (derivable_pt_lim_minus (fun y => item (set_leaf x y t1))
             (fun y => item (set_leaf x y t2))); auto.
  - destruct Hs as [Hs1 Hs2], Hl as [Hl1 Hl2].
    pose proof (derivable_pt_lim_mult (fun y => item (set_leaf x y t1))
                  (fun y => item (set_leaf x y t2)) v _ _
                  (IHt1 Hs1 Hl1) (IHt2 Hs2 Hl2)) as Hm.
    simpl in Hm. rewrite !set_leaf_id in Hm by assumption. exact Hm.
  - destruct Hs as (Hs1 & Hs2 & Hn), Hl as [Hl1 Hl2].
    assert (Hn' : item (set_leaf x v t2) <> 0) by (rewrite set_leaf_id; assumption).
    pose proof (derivable_pt_lim_div (fun y => item (set_leaf x y t1))
                  (fun y => item (set_leaf x y t2)) v _ _
                  (IHt1 Hs1 Hl1) (IHt2 Hs2 Hl2) Hn') as Hd.
    simpl in Hd. rewrite !set_leaf_id in Hd by assumption.
    unfold Rsqr in Hd.
    replace (item (D x t1) * item t2 - item t1 * item (D x t2))
      with (item (D x t1) * item t2 - item (D x t2) * item t1) by ring.
    exact Hd.
  - apply (derivable_pt_lim_opp (fun y => item (set_leaf x y t))); auto.
  - pose proof (derivable_pt_lim_comp (fun y => item (set_leaf x y t))
                  (fun z => z ^ n) v _ _ (IHt Hs Hl)
                  (derivable_pt_lim_pow _ n)) as Hc.
    simpl in Hc. rewrite !set_leaf_id in Hc by assumption. exact Hc.
  - destruct Hs as [Hs Hp].
    assert (Hp' : 0 < item (set_leaf x v t)) by (rewrite set_leaf_id; assumption).
    pose proof (derivable_pt_lim_comp (fun y => item (set_leaf x y t))
                  ln v _ _ (IHt Hs Hl) (derivable_pt_lim_ln _ Hp')) as Hc.
    rewrite !set_leaf_id in Hc by assumption.
    replace (item (D x t) / item t) with (/ item t * item (D x t))
      by (unfold Rdiv; ring).
    exact Hc.
  - pose proof (derivable_pt_lim_comp (fun y => item (set_leaf x y t))
                  exp v _ _ (IHt Hs Hl) (derivable_pt_lim_exp _)) as Hc.
    rewrite !set_leaf_id in Hc by assumption. exact Hc.
  - destruct Hs as [Hs Hp].
    assert (Hp' : 0 < item (set_leaf x v t)) by (rewrite set_leaf_id; assumption).
    pose proof (derivable_pt_lim_comp (fun y => item (set_leaf x y t))
                  sqrt v _ _ (IHt Hs Hl) (derivable_pt_lim_sqrt _ Hp')) as Hc.
    rewrite !set_leaf_id in Hc by assumption.
    replace (item (D x t) / (2 * sqrt (item t)))
      with (/ (2 * sqrt (item t)) * item (D x t)) by (unfold Rdiv; ring).
    exact Hc.
  - pose proof (derivable_pt_lim_comp (fun y => item (set_leaf x y t))
                  Phi v _ _ (IHt Hs Hl) (Phi_derive _)) as Hc.
    rewrite !set_leaf_id in Hc by assumption. exact Hc.
Qed.

End Autograd.

(** ** The valuation function *)

(** [kind[0].lower() == "c"] is case-insensitive on the first character. *)
Lemma lower_is_c (ch : ascii) :
  lower ch = "c"%char <-> ch = "c"%char \/ ch = "C"%char.
Proof.
  split.
  - destruct ch as [[] [] [] [] [] [] [] []]; vm_compute; intros E;
      solve [discriminate E | left; reflexivity | right; reflexivity].
  - intros [-> | ->]; reflexivity.
Qed.

Lemma lower_is_p (ch : ascii) :
  lower ch = "p"%char <-> ch = "p"%char \/ ch = "P"%char.
Proof.
  split.
  - destruct ch as [[] [] [] [] [] [] [] []]; vm_compute; intros E;
      solve [discriminate E | left; reflexivity | right; reflexivity].
  - intros [-> | ->]; reflexivity.
Qed.

(** The value of the graph that [blackScholes_pyTorch] builds. *)
Lemma blackScholes_item (c : ascii) (rest : string) (tS tK tT tV tR : tensor) :
  exists out,
    blackScholes_pyTorch (String c rest) tS tK tT tV tR = Ok out /\
    item out =
    Formula.npv (Ascii.eqb (lower c) "c") (item tS) (item tK) (item tT) (item tV) (item tR).
Proof.
  unfold blackScholes_pyTorch. simpl.
  destruct (Ascii.eqb (lower c) "c"); eexists; (split; [reflexivity |]); simpl;
    unfold Formula.call, Formula.put, Formula.d2, Formula.d1;
    replace (- item tR * item tT) with (- (item tR * item tT)) by ring;
    reflexivity.
Qed.

(** C1. For a kind whose first character is [c] or [C], and positive
    underlying, strike, expiry, volatility and rate, the valuation function
    returns [S * Phi d1 - K * exp (-r T) * Phi d2]; for a kind whose first
    character is [p] or [P] it returns
    [K * exp (-r T) * Phi (-d2) - S * Phi (-d1)], with
    [d1 = (ln (S/K) + (r + sigma^2/2) T) / (sigma * sqrt T)] and
    [d2 = d1 - sigma * sqrt T]. *)
Theorem blackScholes_pyTorch_formula
    (kind : string) (ch : ascii) (rest : string) (tS tK tT tV tR : tensor) :
  kind = String ch rest ->
  0 < item tS -> 0 < item tK -> 0 < item tT -> 0 < item tV -> 0 < item tR ->
  exists out,
    blackScholes_pyTorch kind tS tK tT tV tR = Ok out /\
    (ch = "c"%char \/ ch = "C"%char ->
     item out =
     item tS * Phi (Formula.d1 (item tS) (item tK) (item tT) (item tV) (item tR))
     - item tK * exp (- (item tR * item tT))
       * Phi (Formula.d2 (item tS) (item tK) (item tT) (item tV) (item tR))) /\
    (ch = "p"%char \/ ch = "P"%char ->
     item out =
     item tK * exp (- (item tR * item tT))
       * Phi (- Formula.d2 (item tS) (item tK) (item tT) (item tV) (item tR))
     - item tS * Phi (- Formula.d1 (item tS) (item tK) (item tT) (item tV) (item tR))).
Proof.
  intros -> _ _ _ _ _.
  destruct (blackScholes_item ch rest tS tK tT tV tR) as (out & Hout & Hitem).
  exists out. split; [exact Hout |]. split; intros Hk.
  - apply lower_is_c in Hk. rewrite Hk in Hitem. exact Hitem.
  - apply lower_is_p in Hk. rewrite Hk in Hitem. exact Hitem.
Qed.

Lemma blackScholes_pyTorch_formula_witness :
  exists out,
    blackScholes_pyTorch "Call" (Leaf 0 100 true) (Leaf 1 100 false) (Leaf 2 1 true)
      (Leaf 3 (1 / 5) true) (Leaf 4 BASE_RATE false) = Ok out /\
    item out =
    100 * Phi (Formula.d1 100 100 1 (1 / 5) BASE_RATE)
    - 100 * exp (- (BASE_RATE * 1)) * Phi (Formula.d2 100 100 1 (1 / 5) BASE_RATE).
Proof.
  destruct (blackScholes_pyTorch_formula "Call" "C" "all"
              (Leaf 0 100 true) (Leaf 1 100 false) (Leaf 2 1 true)
              (Leaf 3 (1 / 5) true) (Leaf 4 BASE_RATE false) eq_refl)
    as (out & Hout & Hcall & _); simpl; unfold BASE_RATE; try lra.
  exists out. split; [exact Hout |]. apply Hcall. right. reflexivity.
Defined.

(** C8. Put-call parity: at the same positive parameters the value of a
    call minus the value of a put is [S - K * exp (-r T)]. *)
Theorem put_call_parity (tS tK tT tV tR : tensor) :
  0 < item tS -> 0 < item tK -> 0 < item tT -> 0 < item tV -> 0 < item tR ->
  exists c p,
    blackScholes_pyTorch "call" tS tK tT tV tR = Ok c /\
    blackScholes_pyTorch "put" tS tK tT tV tR = Ok p /\
    item c - item p = item tS - item tK * exp (- (item tR * item tT)).
Proof.
  intros _ _ _ _ _.
  destruct (blackScholes_item "c" "all" tS tK tT tV tR) as (c & Hc & Hci).
  destruct (blackScholes_item "p" "ut" tS tK tT tV tR) as (p & Hp & Hpi).
  exists c, p. split; [exact Hc |]. split; [exact Hp |].
  rewrite Hci, Hpi. simpl. unfold Formula.call, Formula.put.
  rewrite !Phi_neg. ring.
Qed.

Lemma put_call_parity_witness :
  exists c p,
    optionNPV "call" 100 95 (1 / 2) (3 / 10) BASE_RATE = Ok c /\
    optionNPV "put" 100 95 (1 / 2) (3 / 10) BASE_RATE = Ok p /\
    item c - item p = 100 - 95 * exp (- (BASE_RATE * (1 / 2))).
Proof.
  unfold optionNPV.
  apply (put_call_parity (Leaf 0 100 true) (Leaf 1 95 false) (Leaf 2 (1 / 2) true)
           (Leaf 3 (3 / 10) true) (Leaf 4 BASE_RATE false));
    simpl; unfold BASE_RATE; lra.
Defined.

(** ** First-order Greeks by autograd *)

Lemma blackScholes_graph (c : ascii) (rest : string) (tS tK tT tV tR : tensor) :
  blackScholes_pyTorch (String c rest) tS tK tT tV tR =
  Ok (bs_graph (Ascii.eqb (lower c) "c") tS tK tT tV tR).
Proof.
  unfold blackScholes_pyTorch, bs_graph. simpl.
  destruct (Ascii.eqb (lower c) "c"); reflexivity.
Qed.

Lemma bs_graph_item (b : bool) (tS tK tT tV tR : tensor) :
  item (bs_graph b tS tK tT tV tR) =
  Formula.npv b (item tS) (item tK) (item tT) (item tV) (item tR).
Proof.
  destruct b; simpl;
    unfold Formula.call, Formula.put, Formula.d2, Formula.d1;
    replace (- item tR * item tT) with (- (item tR * item tT)) by ring;
    reflexivity.
Qed.

Lemma bs_graph_requires_grad (b : bool) (tS tK tT tV tR : tensor) :
  requires_grad (bs_graph b tS tK tT tV tR) =
  requires_grad tS || requires_grad tK || requires_grad tT || requires_grad tV
  || requires_grad tR.
Proof.
  destruct b; simpl;
    destruct (requires_grad tS), (requires_grad tK), (requires_grad tT),
      (requires_grad tV), (requires_grad tR); reflexivity.
Qed.

Section Leaves.

Variables (b bS bK bT bV bR : bool) (S K T V r : R).
Hypotheses (HS : 0 < S) (HK : 0 < K) (HT : 0 < T) (HV : 0 < V).

Lemma bs_leaves_smooth : smooth (bs_leaves b bS bK bT bV bR S K T V r).
Proof.
  assert (0 < S / K) by (apply Rdiv_lt_0_compat; assumption).
  assert (0 < sqrt T) by (apply sqrt_lt_R0; assumption).
  assert (V * sqrt T <> 0) by (apply Rmult_integral_contrapositive; split; lra).
  assert (K <> 0) by lra.
  assert (2 <> 0) by lra.
  unfold bs_leaves. destruct b; simpl; tauto.
Qed.

Lemma bs_leaves_item (s k t v q : R) :
  item (bs_leaves b bS bK bT bV bR s k t v q) = Formula.npv b s k t v q.
Proof. unfold bs_leaves. rewrite bs_graph_item. reflexivity. Qed.

Lemma bs_leaves_at_S : leaf_at 0 S (bs_leaves b bS bK bT bV bR S K T V r).
Proof. unfold bs_leaves. destruct b; simpl; intuition discriminate. Qed.

Lemma bs_leaves_at_T : leaf_at 2 T (bs_leaves b bS bK bT bV bR S K T V r).
Proof. unfold bs_leaves. destruct b; simpl; intuition discriminate. Qed.

Lemma bs_leaves_at_V : leaf_at 3 V (bs_leaves b bS bK bT bV bR S K T V r).
Proof. unfold bs_leaves. destruct b; simpl; intuition discriminate. Qed.

Lemma bs_leaves_set_S (y : R) :
  set_leaf 0 y (bs_leaves b bS bK bT bV bR S K T V r) = bs_leaves b bS bK bT bV bR y K T V r.
Proof. unfold bs_leaves. destruct b; reflexivity. Qed.

Lemma bs_leaves_set_T (y : R) :
  set_leaf 2 y (bs_leaves b bS bK bT bV bR S K T V r) = bs_leaves b bS bK bT bV bR S K y V r.
Proof. unfold bs_leaves. destruct b; reflexivity. Qed.

Lemma bs_leaves_set_V (y : R) :
  set_leaf 3 y (bs_leaves b bS bK bT bV bR S K T V r) = bs_leaves b bS bK bT bV bR S K T y r.
Proof. unfold bs_leaves. destruct b; reflexivity. Qed.

(** The three first-order gradients are the partial derivatives of the
    valuation formula. *)
Lemma bs_partial_S :
  derivable_pt_lim (fun s => Formula.npv b s K T V r) S
    (item (D 0 (bs_leaves b bS bK bT bV bR S K T V r))).
Proof.
  apply (derivable_pt_lim_ext
           (fun y => item (set_leaf 0 y (bs_leaves b bS bK bT bV bR S K T V r)))).
  - intro y. rewrite bs_leaves_set_S. apply bs_leaves_item.
  - apply Autograd.D_correct; [apply bs_leaves_smooth | apply bs_leaves_at_S].
Qed.

Lemma bs_partial_T :
  derivable_pt_lim (fun t => Formula.npv b S K t V r) T
    (item (D 2 (bs_leaves b bS bK bT bV bR S K T V r))).
Proof.
  apply (derivable_pt_lim_ext
           (fun y => item (set_leaf 2 y (bs_leaves b bS bK bT bV bR S K T V r)))).
  - intro y. rewrite bs_leaves_set_T. apply bs_leaves_item.
  - apply Autograd.D_correct; [apply bs_leaves_smooth | apply bs_leaves_at_T].
Qed.

Lemma bs_partial_V :
  derivable_pt_lim (fun v => Formula.npv b S K T v r) V
    (item (D 3 (bs_leaves b bS bK bT bV bR S K T V r))).
Proof.
  apply (derivable_pt_lim_ext
           (fun y => item (set_leaf 3 y (bs_leaves b bS bK bT bV bR S K T V r)))).
  - intro y. rewrite bs_leaves_set_V. apply bs_leaves_item.
  - apply Autograd.D_correct; [apply bs_leaves_smooth | apply bs_leaves_at_V].
Qed.

(** The second pass: the gradient of the gradient is the derivative of the
    first partial derivative. *)
Lemma bs_second_S :
  derivable_pt_lim (fun s => item (D 0 (bs_leaves b bS bK bT bV bR s K T V r))) S
    (item (D 0 (D 0 (bs_leaves b bS bK bT bV bR S K T V r)))).
Proof.
  apply (derivable_pt_lim_ext
           (fun y => item (set_leaf 0 y (D 0 (bs_leaves b bS bK bT bV bR S K T V r))))).
  - intro y. rewrite <- Autograd.D_set_leaf, bs_leaves_set_S. reflexivity.
  - apply Autograd.D_correct.
    + apply Autograd.smooth_D, bs_leaves_smooth.
    + apply Autograd.leaf_at_D, bs_leaves_at_S.
Qed.

Lemma bs_second_V :
  derivable_pt_lim (fun v => item (D 3 (bs_leaves b bS bK bT bV bR S K T v r))) V
    (item (D 3 (D 3 (bs_leaves b bS bK bT bV bR S K T V r)))).
Proof.
  apply (derivable_pt_lim_ext
           (fun y => item (set_leaf 3 y (D 3 (bs_leaves b bS bK bT bV bR S K T V r))))).
  - intro y. rewrite <- Autograd.D_set_leaf, bs_leaves_set_V. reflexivity.
  - apply Autograd.D_correct.
    + apply Autograd.smooth_D, bs_leaves_smooth.
    + apply Autograd.leaf_at_D, bs_leaves_at_V.
Qed.

End Leaves.

(** What [deriveGreeks1] returns, in terms of the gradient graphs. *)
Lemma deriveGreeks1_eval (c : ascii) (rest : string) (s0 k t sigma r : R) :
  let g := bs_leaves (Ascii.eqb (lower c) "c") true false true true false
             s0 k t sigma r in
  deriveGreeks1 (String c rest) s0 k t sigma r =
  Ok (g,
      PyTensor (Div (Neg (Const (item (D 2 g)))) (Const 365.25)),
      PyTensor (Const (item (D 0 g))),
      PyTensor (Div (Const (item (D 3 g))) (Const 100))).
Proof.
  intros g. unfold deriveGreeks1.
  rewrite blackScholes_graph. fold (bs_leaves (Ascii.eqb (lower c) "c") true false true true false s0 k t sigma r).
  fold g. cbn [rbind].
  unfold backward. unfold g at 1, bs_leaves. rewrite bs_graph_requires_grad.
  reflexivity.
Qed.

(** C2. For positive inputs and either kind, [deriveGreeks1] returns the
    value [npv] of the valuation function together with
    [theta = - (d npv / d T) / 365.25], [delta = d npv / d S] and
    [vega = (d npv / d sigma) / 100], the derivatives being the partial
    derivatives of the valuation formula at the inputs. *)
Theorem deriveGreeks1_partials
    (kind : string) (ch : ascii) (rest : string) (S K T sigma r : R) :
  kind = String ch rest ->
  0 < S -> 0 < K -> 0 < T -> 0 < sigma -> 0 < r ->
  let value := Formula.npv (Ascii.eqb (lower ch) "c") in
  exists npv theta delta vega dT dS dV,
    deriveGreeks1 kind S K T sigma r = Ok (npv, theta, delta, vega) /\
    item npv = value S K T sigma r /\
    derivable_pt_lim (fun t => value S K t sigma r) T dT /\
    derivable_pt_lim (fun s => value s K T sigma r) S dS /\
    derivable_pt_lim (fun v => value S K T v r) sigma dV /\
    unwrap theta = PyFloat (- dT / 365.25) /\
    unwrap delta = PyFloat dS /\
    unwrap vega = PyFloat (dV / 100).
Proof.
  intros -> HS HK HT HV _ value.
  pose (g := bs_leaves (Ascii.eqb (lower ch) "c") true false true true false
               S K T sigma r).
  exists g, (PyTensor (Div (Neg (Const (item (D 2 g)))) (Const 365.25))),
    (PyTensor (Const (item (D 0 g)))),
    (PyTensor (Div (Const (item (D 3 g))) (Const 100))),
    (item (D 2 g)), (item (D 0 g)), (item (D 3 g)).
  split; [apply deriveGreeks1_eval |].
  split; [apply bs_leaves_item |].
  split; [apply bs_partial_T; assumption |].
  split; [apply bs_partial_S; assumption |].
  split; [apply bs_partial_V; assumption |].
  repeat split.
Qed.

Lemma deriveGreeks1_partials_witness :
  exists npv theta delta vega dT dS dV,
    deriveGreeks1 "put" 100 95 (1 / 2) (3 / 10) BASE_RATE
    = Ok (npv, theta, delta, vega) /\
    item npv = Formula.put 100 95 (1 / 2) (3 / 10) BASE_RATE /\
    derivable_pt_lim (fun t => Formula.put 100 95 t (3 / 10) BASE_RATE) (1 / 2) dT /\
    derivable_pt_lim (fun s => Formula.put s 95 (1 / 2) (3 / 10) BASE_RATE) 100 dS /\
    derivable_pt_lim (fun v => Formula.put 100 95 (1 / 2) v BASE_RATE) (3 / 10) dV /\
    unwrap theta = PyFloat (- dT / 365.25) /\
    unwrap delta = PyFloat dS /\
    unwrap vega = PyFloat (dV / 100).
Proof.
  apply (deriveGreeks1_partials "put" "p" "ut" 100 95 (1 / 2) (3 / 10) BASE_RATE eq_refl);
    unfold BASE_RATE; lra.
Defined.

(** ** Second-order Greeks by autograd *)

(** What one pass of [runForIdx] returns for each index of [calculateAll]. *)
Lemma runForIdx_0 (c : ascii) (rest : string) (s0 k t sigma r : R) :
  runForIdx (String c rest) s0 k t sigma r 0 =
  Ok (PyTensor (Const (item (D 0 (D 0
        (bs_leaves (Ascii.eqb (lower c) "c") true false false false false
           s0 k t sigma r)))))).
Proof.
  unfold runForIdx. rewrite blackScholes_graph.
  destruct (Ascii.eqb (lower c) "c"); reflexivity.
Qed.

Lemma runForIdx_3 (c : ascii) (rest : string) (s0 k t sigma r : R) :
  runForIdx (String c rest) s0 k t sigma r 3 =
  Ok (PyTensor (Const (item (D 3 (D 3
        (bs_leaves (Ascii.eqb (lower c) "c") false false false true false
           s0 k t sigma r)))))).
Proof.
  unfold runForIdx. rewrite blackScholes_graph.
  destruct (Ascii.eqb (lower c) "c"); reflexivity.
Qed.

Lemma runForIdx_1 (c : ascii) (rest : string) (s0 k t sigma r : R) :
  runForIdx (String c rest) s0 k t sigma r 1 = Raise TypeError.
Proof.
  unfold runForIdx. rewrite blackScholes_graph.
  destruct (Ascii.eqb (lower c) "c"); reflexivity.
Qed.

Lemma runForIdx_2 (c : ascii) (rest : string) (s0 k t sigma r : R) :
  runForIdx (String c rest) s0 k t sigma r 2 = Raise TypeError.
Proof.
  unfold runForIdx. rewrite blackScholes_graph.
  destruct (Ascii.eqb (lower c) "c"); reflexivity.
Qed.

Lemma runForIdx_4 (c : ascii) (rest : string) (s0 k t sigma r : R) :
  runForIdx (String c rest) s0 k t sigma r 4 = Ok PyNone.
Proof.
  unfold runForIdx. rewrite blackScholes_graph.
  destruct (Ascii.eqb (lower c) "c"); reflexivity.
Qed.

(** The two indices that are served as documented: with positive inputs,
    index 0 is the second derivative in the underlying (gamma) and index 3
    the second derivative in the volatility; the default [which] asks for
    gamma alone. *)
Lemma deriveGreeks2_gamma (ch : ascii) (rest : string) (S K T sigma r : R) :
  0 < S -> 0 < K -> 0 < T -> 0 < sigma ->
  let value := Formula.npv (Ascii.eqb (lower ch) "c") in
  exists (delta_ : R -> R) (d2S : R),
    (forall s, 0 < s -> derivable_pt_lim (fun x => value x K T sigma r) s (delta_ s)) /\
    derivable_pt_lim delta_ S d2S /\
    deriveGreeks2 (String ch rest) S K T sigma r which_default
    = Ok [PyTensor (Const d2S)].
Proof.
  intros HS HK HT HV value.
  pose (b := Ascii.eqb (lower ch) "c").
  exists (fun s => item (D 0 (bs_leaves b true false false false false s K T sigma r))),
    (item (D 0 (D 0 (bs_leaves b true false false false false S K T sigma r)))).
  split; [| split].
  - intros s Hs. apply bs_partial_S; assumption.
  - apply bs_second_S; assumption.
  - unfold deriveGreeks2, which_default. cbn [py_map].
    rewrite runForIdx_0. reflexivity.
Qed.

(** X6. Index 3: the second derivative of the valuation in the volatility. *)
Lemma deriveGreeks2_vomma (ch : ascii) (rest : string) (S K T sigma r : R) :
  0 < S -> 0 < K -> 0 < T -> 0 < sigma ->
  let value := Formula.npv (Ascii.eqb (lower ch) "c") in
  exists (vega_ : R -> R) (d2V : R),
    (forall v, 0 < v -> derivable_pt_lim (fun x => value S K T x r) v (vega_ v)) /\
    derivable_pt_lim vega_ sigma d2V /\
    deriveGreeks2 (String ch rest) S K T sigma r [3%Z] = Ok [PyTensor (Const d2V)].
Proof.
  intros HS HK HT HV value.
  pose (b := Ascii.eqb (lower ch) "c").
  exists (fun v => item (D 3 (bs_leaves b false false false true false S K T v r))),
    (item (D 3 (D 3 (bs_leaves b false false false true false S K T sigma r)))).
  split; [| split].
  - intros v Hv. apply bs_partial_V; assumption.
  - apply bs_second_V; assumption.
  - unfold deriveGreeks2. cbn [py_map].
    rewrite runForIdx_3. reflexivity.
Qed.

(** C3. The mixed second-order indices are not served: at every input with
    a non-empty kind, index 1 and index 2 divide the [None] gradient of an
    untracked tensor and raise [TypeError], and index 4 returns that [None]
    itself. *)
Theorem deriveGreeks2_mixed_indices
    (ch : ascii) (rest : string) (s0 k t sigma r : R) :
  deriveGreeks2 (String ch rest) s0 k t sigma r [1%Z] = Raise TypeError /\
  deriveGreeks2 (String ch rest) s0 k t sigma r [2%Z] = Raise TypeError /\
  deriveGreeks2 (String ch rest) s0 k t sigma r [4%Z] = Ok [PyNone].
Proof.
  unfold deriveGreeks2. cbn [py_map].
  rewrite runForIdx_1, runForIdx_2, runForIdx_4. repeat split.
Qed.

(** ** The store *)

Lemma upd_eq (h : heap) (p : loc) (o : Option_) : upd h p o p = o.
Proof. unfold upd. rewrite Nat.eqb_refl. reflexivity. Qed.

Lemma upd_neq (h : heap) (p q : loc) (o : Option_) : q <> p -> upd h p o q = h q.
Proof.
  intros Hq. unfold upd. apply Nat.eqb_neq in Hq. rewrite Hq. reflexivity.
Qed.

Lemma upd_upd (h : heap) (p : loc) (o o' : Option_) :
  upd (upd h p o) p o' = upd h p o'.
Proof.
  apply functional_extensionality. intro q. unfold upd.
  destruct (Nat.eqb q p); reflexivity.
Qed.

Lemma upd_self (h : heap) (p : loc) : upd h p (h p) = h.
Proof.
  apply functional_extensionality. intro q. unfold upd.
  destruct (Nat.eqb q p) eqn:E; [| reflexivity].
  apply Nat.eqb_eq in E. subst q. reflexivity.
Qed.

Lemma truthy_0 : truthy 0 = false.
Proof. unfold truthy. destruct (Req_dec_T 0 0); [reflexivity | contradiction]. Qed.

Lemma truthy_nonzero (x : R) : x <> 0 -> truthy x = true.
Proof. intros Hx. unfold truthy. destruct (Req_dec_T x 0); [contradiction | reflexivity]. Qed.

(** ** Implied volatility *)

Section Solvers.

Context `{RF : RootFinder} `{VL : Vollib}.

Lemma ivFromOptionAuto_bracketed (p : loc) (h : heap) :
  ivFromOptionAuto p 0 h =
  (upd h p (with_iv (h p) (Some (bracketed_iv (h p)))),
   Ok (Some (bracketed_iv (h p)))).
Proof.
  unfold ivFromOptionAuto, bracketed_iv. rewrite truthy_0.
  unfold bind, try_except, get, lift, set_iv, ret.
  destruct (brentq (findIV (h p)) 0 5000); rewrite upd_eq; reflexivity.
Qed.

Lemma ivFromOptionFast_eval (p : loc) (h : heap) :
  ivFromOptionFast p h =
  match fast_call (h p) with
  | Ok v => (upd h p (with_iv (h p) (Some v)), Ok (Some v))
  | Raise _ => ivFromOptionAuto p 0 h
  end.
Proof.
  unfold ivFromOptionFast, fast_call.
  unfold bind at 1. unfold try_except.
  unfold bind at 1. unfold get at 1.
  unfold bind at 1. unfold lift at 1.
  destruct (str_head (kind (h p))) as [c | e]; cbn [rbind].
  - unfold bind at 1. unfold lift at 1.
    destruct (implied_volatility _ _ _ _ _ _) as [v | e].
    + unfold set_iv, bind, get, ret. rewrite upd_eq. reflexivity.
    + unfold bind at 1. rewrite ivFromOptionAuto_bracketed.
      unfold set_iv, bind, get, ret. rewrite !upd_eq, upd_upd. reflexivity.
  - unfold bind at 1. rewrite ivFromOptionAuto_bracketed.
    unfold set_iv, bind, get, ret. rewrite !upd_eq, upd_upd. reflexivity.
Qed.


(** C6. When the analytical inversion raises, [ivFromOptionFast] does not
    propagate the exception: it ends exactly as [ivFromOptionAuto] without
    a guess ends on the same store, with the same [iv] stored and
    returned. *)
Theorem ivFromOptionFast_falls_back
    (h : heap) (p : loc) (ch : ascii) (rest : string) (e : exn) :
  kind (h p) = String ch rest ->
  implied_volatility (npv (h p)) (underlying (h p)) (strike (h p)) (expiry (h p))
    BASE_RATE (lower ch) = Raise e ->
  ivFromOptionFast p h = ivFromOptionAuto p 0 h /\
  exists v, ivFromOptionFast p h = (upd h p (with_iv (h p) (Some v)), Ok (Some v)).
Proof.
  intros Hk He.
  assert (Hf : ivFromOptionFast p h = ivFromOptionAuto p 0 h).
  { rewrite ivFromOptionFast_eval. unfold fast_call.
    rewrite Hk. cbn [str_head rbind]. rewrite He. reflexivity. }
  split; [exact Hf |].
  rewrite Hf. exists (bracketed_iv (h p)). apply ivFromOptionAuto_bracketed.
Qed.

End Solvers.

Lemma ivFromOptionFast_falls_back_witness :
  @ivFromOptionFast no_root below_intrinsic 0%nat (sample "put" None (Some 5)) =
  @ivFromOptionAuto no_root 0%nat 0 (sample "put" None (Some 5)).
Proof.
  exact (proj1 (@ivFromOptionFast_falls_back no_root below_intrinsic
                  (sample "put" None (Some 5)) 0%nat "p" "ut" (LibraryError 0)
                  eq_refl eq_refl)).
Defined.

(** ** The two entry points *)

Section EntryPoints.

Context `{RF : RootFinder} `{VL : Vollib}.

Lemma ivFromOptionFast_stores (p : loc) (h : heap) :
  ivFromOptionFast p h =
  (upd h p (with_iv (h p) (Some (fast_iv (h p)))), Ok (Some (fast_iv (h p)))).
Proof.
  rewrite ivFromOptionFast_eval. unfold fast_iv.
  destruct (fast_call (h p)); [reflexivity | apply ivFromOptionAuto_bracketed].
Qed.

Lemma optionGreeksAuto_unfold (p : loc) (c : bool) (h : heap) :
  optionGreeksAuto p c h =
  if truthy_opt (iv (h p)) then auto_body p c h
  else if truthy_opt (npv (h p)) then
    auto_body p c (upd h p (with_iv (h p) (Some (bracketed_iv (h p)))))
  else (h, Raise AssertionError).
Proof.
  unfold optionGreeksAuto. fold (auto_body p c).
  unfold bind at 1. unfold get at 1.
  unfold bind at 1.
  destruct (truthy_opt (iv (h p))); cbn [negb].
  - reflexivity.
  - unfold bind at 1. unfold py_assert, lift.
    destruct (truthy_opt (npv (h p))); [| reflexivity].
    unfold bind at 1. rewrite ivFromOptionAuto_bracketed. reflexivity.
Qed.

Lemma optionGreeksFast_unfold (p : loc) (c : bool) (h : heap) :
  let rest := (fast_revalue p c ;;; fast_greeks p)%heap in
  optionGreeksFast p c h =
  if truthy_opt (iv (h p)) then rest h
  else if truthy_opt (npv (h p)) then
    rest (upd h p (with_iv (h p) (Some (fast_iv (h p)))))
  else (h, Raise AssertionError).
Proof.
  intros rest. unfold optionGreeksFast.
  fold (fast_revalue p c). fold (fast_greeks p). fold rest.
  unfold bind at 1. unfold get at 1.
  unfold bind at 1.
  destruct (truthy_opt (iv (h p))); cbn [negb].
  - reflexivity.
  - unfold bind at 1. unfold py_assert, lift.
    destruct (truthy_opt (npv (h p))); [| reflexivity].
    unfold bind at 1. rewrite ivFromOptionFast_stores. reflexivity.
Qed.

(** C7. With neither [iv] nor [npv] supplied, both entry points raise the
    assertion error at once: the store is left as it was, so no solver has
    run and no Greek has been computed or stored. *)
Theorem missing_inputs_rejected (h : heap) (p : loc) (calculateNPV : bool) :
  iv (h p) = None -> npv (h p) = None ->
  optionGreeksAuto p calculateNPV h = (h, Raise AssertionError) /\
  optionGreeksFast p calculateNPV h = (h, Raise AssertionError).
Proof.
  intros Hiv Hnpv.
  rewrite optionGreeksAuto_unfold, optionGreeksFast_unfold, Hiv, Hnpv.
  split; reflexivity.
Qed.

Lemma bracketed_iv_with_iv (o : Option_) (x : option R) :
  bracketed_iv (with_iv o x) = bracketed_iv o.
Proof. reflexivity. Qed.

Lemma fast_iv_with_iv (o : Option_) (x : option R) :
  fast_iv (with_iv o x) = fast_iv o.
Proof. reflexivity. Qed.

(** With a true [npv], whatever false value [iv] holds is replaced by the
    solver's result before anything else happens. *)
Lemma optionGreeksAuto_resolves (p : loc) (c : bool) (h : heap) (x : option R) :
  truthy_opt (npv (h p)) = true -> truthy_opt x = false ->
  optionGreeksAuto p c (upd h p (with_iv (h p) x)) =
  auto_body p c (upd h p (with_iv (h p) (Some (bracketed_iv (h p))))).
Proof.
  intros Hn Hx. rewrite optionGreeksAuto_unfold, !upd_eq. cbn [iv npv with_iv].
  rewrite Hx, Hn, upd_upd. reflexivity.
Qed.

Lemma optionGreeksAuto_resolved (p : loc) (c : bool) (h : heap) :
  truthy_opt (npv (h p)) = true ->
  optionGreeksAuto p c (upd h p (with_iv (h p) (Some (bracketed_iv (h p))))) =
  auto_body p c (upd h p (with_iv (h p) (Some (bracketed_iv (h p))))).
Proof.
  intros Hn.
  destruct (truthy_opt (Some (bracketed_iv (h p)))) eqn:Hv.
  - rewrite optionGreeksAuto_unfold, !upd_eq. cbn [iv with_iv].
    rewrite Hv. reflexivity.
  - apply optionGreeksAuto_resolves; assumption.
Qed.

Lemma optionGreeksFast_resolves (p : loc) (c : bool) (h : heap) (x : option R) :
  truthy_opt (npv (h p)) = true -> truthy_opt x = false ->
  optionGreeksFast p c (upd h p (with_iv (h p) x)) =
  (fast_revalue p c ;;; fast_greeks p)%heap
    (upd h p (with_iv (h p) (Some (fast_iv (h p))))).
Proof.
  intros Hn Hx. rewrite optionGreeksFast_unfold, !upd_eq. cbn [iv npv with_iv].
  rewrite Hx, Hn, upd_upd. reflexivity.
Qed.

Lemma optionGreeksFast_resolved (p : loc) (c : bool) (h : heap) :
  truthy_opt (npv (h p)) = true ->
  optionGreeksFast p c (upd h p (with_iv (h p) (Some (fast_iv (h p))))) =
  (fast_revalue p c ;;; fast_greeks p)%heap
    (upd h p (with_iv (h p) (Some (fast_iv (h p))))).
Proof.
  intros Hn.
  destruct (truthy_opt (Some (fast_iv (h p)))) eqn:Hv.
  - rewrite optionGreeksFast_unfold, !upd_eq. cbn [iv with_iv].
    rewrite Hv. reflexivity.
  - apply optionGreeksFast_resolves; assumption.
Qed.

(** C9. An [iv] of exactly 0 counts as no [iv], and an [npv] of exactly 0
    as no [npv]. With [iv] absent or 0 and [npv] absent or 0 both entry
    points raise the assertion error and leave the store as it was. With
    [iv] absent or 0 and a non-zero [npv] each entry point first runs its
    solver on [npv]: the store it continues from is the one the solver
    leaves, in which [iv] holds the solver's answer (for the exact entry
    point the root that [brentq] found for [findIV], or 0), and the run is
    the rest of the entry point on that store. In particular the run is the
    one on the same record with [iv] set to [None]. *)
Theorem zero_iv_is_absent (h : heap) (p : loc) (calculateNPV : bool) :
  iv (h p) = None \/ iv (h p) = Some 0 ->
  (npv (h p) = None \/ npv (h p) = Some 0 ->
   optionGreeksAuto p calculateNPV h = (h, Raise AssertionError) /\
   optionGreeksFast p calculateNPV h = (h, Raise AssertionError)) /\
  (forall q, npv (h p) = Some q -> q <> 0 ->
   let h0 := upd h p (with_iv (h p) None) in
   let hA := fst (ivFromOptionAuto p 0 h) in
   let hF := fst (ivFromOptionFast p h) in
   hA = upd h p (with_iv (h p)
                   (Some (match brentq (findIV (h p)) 0 5000 with
                          | Ok s => s
                          | Raise _ => 0
                          end))) /\
   hF = upd h p (with_iv (h p) (Some (fast_iv (h p)))) /\
   optionGreeksAuto p calculateNPV h = auto_body p calculateNPV hA /\
   optionGreeksFast p calculateNPV h =
   (fast_revalue p calculateNPV ;;; fast_greeks p)%heap hF /\
   optionGreeksAuto p calculateNPV h = optionGreeksAuto p calculateNPV h0 /\
   optionGreeksFast p calculateNPV h = optionGreeksFast p calculateNPV h0 /\
   optionGreeksAuto p calculateNPV h = optionGreeksAuto p calculateNPV hA /\
   optionGreeksFast p calculateNPV h = optionGreeksFast p calculateNPV hF).
Proof.
  intros Hiv.
  assert (Hi : truthy_opt (iv (h p)) = false).
  { destruct Hiv as [-> | ->]; [reflexivity | apply truthy_0]. }
  split.
  - intros Hnpv.
    assert (Hn : truthy_opt (npv (h p)) = false).
    { destruct Hnpv as [-> | ->]; [reflexivity | apply truthy_0]. }
    rewrite optionGreeksAuto_unfold, optionGreeksFast_unfold, Hi, Hn.
    split; reflexivity.
  - intros q Hq Hq0 h0 hA hF.
    assert (Hn : truthy_opt (npv (h p)) = true).
    { rewrite Hq. apply truthy_nonzero, Hq0. }
    assert (HA : hA = upd h p (with_iv (h p) (Some (bracketed_iv (h p))))).
    { unfold hA. rewrite ivFromOptionAuto_bracketed. reflexivity. }
    assert (HF : hF = upd h p (with_iv (h p) (Some (fast_iv (h p))))).
    { unfold hF. rewrite ivFromOptionFast_stores. reflexivity. }
    split; [exact HA |]. split; [exact HF |].
    rewrite HA, HF. unfold h0.
    rewrite (optionGreeksAuto_resolves p calculateNPV h None Hn eq_refl).
    rewrite (optionGreeksFast_resolves p calculateNPV h None Hn eq_refl).
    rewrite (optionGreeksAuto_resolved p calculateNPV h Hn).
    rewrite (optionGreeksFast_resolved p calculateNPV h Hn).
    rewrite optionGreeksAuto_unfold, optionGreeksFast_unfold, Hi, Hn.
    repeat split.
Qed.

(** ** The kind of an option *)

Lemma fast_greeks_rejects (p : loc) (h : heap) (ch : ascii) (rest : string) :
  kind (h p) = String ch rest ->
  lower ch <> "c"%char -> lower ch <> "p"%char ->
  fast_greeks p h = (h, Raise AssertionError).
Proof.
  intros Hk Hc Hp. unfold fast_greeks.
  unfold bind at 1. unfold get at 1.
  unfold bind at 1. rewrite Hk. cbn [str_head lift].
  unfold bind at 1. unfold py_assert, lift.
  apply Ascii.eqb_neq in Hc, Hp. rewrite Hc, Hp. reflexivity.
Qed.

Lemma fast_revalue_cases (p : loc) (c : bool) (h : heap) :
  fast_revalue p c h = (h, Ok tt) \/
  exists v, fast_revalue p c h = (upd h p (with_npv (h p) (Some v)), Ok tt).
Proof.
  unfold fast_revalue. destruct c; [| left; reflexivity].
  unfold try_except, bind, get, lift, set_npv, ret.
  destruct (float_ (iv (h p))) as [sigma |]; [| left; reflexivity].
  destruct (optionNPV _ _ _ _ _ _) as [t |]; [| left; reflexivity].
  right. exists (item t). reflexivity.
Qed.

Lemma fast_rest_rejects (p : loc) (c : bool) (h : heap) (ch : ascii) (rest : string) :
  kind (h p) = String ch rest ->
  lower ch <> "c"%char -> lower ch <> "p"%char ->
  exists h',
    (fast_revalue p c ;;; fast_greeks p)%heap h = (h', Raise AssertionError) /\
    greeks (h' p) = greeks (h p).
Proof.
  intros Hk Hc Hp. unfold bind.
  destruct (fast_revalue_cases p c h) as [-> | [v ->]].
  - exists h. split; [| reflexivity].
    apply (fast_greeks_rejects p h ch rest); assumption.
  - exists (upd h p (with_npv (h p) (Some v))). split.
    + apply (fast_greeks_rejects _ _ ch rest); try assumption.
      rewrite upd_eq. exact Hk.
    + rewrite upd_eq. reflexivity.
Qed.

(** The revaluation step on a kind that is not a call. *)
Lemma fast_revalue_put (p : loc) (h : heap) (ch : ascii) (rest : string) (sigma : R) :
  kind (h p) = String ch rest -> lower ch <> "c"%char -> iv (h p) = Some sigma ->
  fast_revalue p true h =
  (upd h p (with_npv (h p)
              (Some (Formula.put (underlying (h p)) (strike (h p)) (expiry (h p))
                       sigma BASE_RATE))),
   Ok tt).
Proof.
  intros Hk Hc Hiv. apply Ascii.eqb_neq in Hc.
  unfold fast_revalue, try_except, bind, get, lift, set_npv, ret.
  rewrite Hiv. cbn [float_]. unfold optionNPV.
  rewrite Hk, blackScholes_graph, Hc, bs_graph_item. reflexivity.
Qed.

(** The steps after the solver, on a kind that the flag check rejects. *)
Lemma fast_rest_rejected (p : loc) (h : heap) (ch : ascii) (rest : string) :
  kind (h p) = String ch rest ->
  lower ch <> "c"%char -> lower ch <> "p"%char ->
  (fast_revalue p false ;;; fast_greeks p)%heap h = (h, Raise AssertionError) /\
  forall sigma,
    iv (h p) = Some sigma ->
    (fast_revalue p true ;;; fast_greeks p)%heap h =
    (upd h p (with_npv (h p)
                (Some (Formula.put (underlying (h p)) (strike (h p)) (expiry (h p))
                         sigma BASE_RATE))),
     Raise AssertionError).
Proof.
  intros Hk Hc Hp. split.
  - unfold bind. cbn [fast_revalue ret].
    apply (fast_greeks_rejects p h ch rest); assumption.
  - intros sigma Hiv. unfold bind.
    rewrite (fast_revalue_put p h ch rest sigma Hk Hc Hiv).
    apply (fast_greeks_rejects _ _ ch rest); try assumption.
    rewrite upd_eq. exact Hk.
Qed.

(** C4, as the code has it. A non-empty kind whose first character is,
    case-insensitively, neither [c] nor [p] is valued as a put by the
    valuation function, without any error; the fast entry point is the one
    operation that rejects it: on every record it raises the assertion
    error and stores no Greeks. The rejection is the last check, not the
    first: with neither [iv] nor [npv] the missing-input assertion fires
    and the store is left as it was; otherwise the store that is left is
    the one in which an absent [iv] has been replaced by the solver's
    answer and, with [calculateNPV] (positive underlying, strike, expiry
    and volatility), [npv] by the value of the put. *)
Theorem unknown_kind_is_put_or_rejected (ch : ascii) (rest : string) :
  lower ch <> "c"%char -> lower ch <> "p"%char ->
  (forall tS tK tT tV tR,
      blackScholes_pyTorch (String ch rest) tS tK tT tV tR =
      blackScholes_pyTorch "put" tS tK tT tV tR) /\
  (forall h p calculateNPV,
      kind (h p) = String ch rest ->
      exists h',
        optionGreeksFast p calculateNPV h = (h', Raise AssertionError) /\
        greeks (h' p) = greeks (h p)) /\
  (forall h p calculateNPV,
      kind (h p) = String ch rest ->
      truthy_opt (iv (h p)) = false -> truthy_opt (npv (h p)) = false ->
      optionGreeksFast p calculateNPV h = (h, Raise AssertionError)) /\
  (forall h p,
      kind (h p) = String ch rest ->
      truthy_opt (iv (h p)) = true \/ truthy_opt (npv (h p)) = true ->
      let o := if truthy_opt (iv (h p)) then h p
               else with_iv (h p) (Some (fast_iv (h p))) in
      optionGreeksFast p false h = (upd h p o, Raise AssertionError) /\
      forall sigma,
        iv o = Some sigma ->
        0 < underlying (h p) -> 0 < strike (h p) -> 0 < expiry (h p) -> 0 < sigma ->
        optionGreeksFast p true h =
        (upd h p (with_npv o
                    (Some (Formula.put (underlying (h p)) (strike (h p)) (expiry (h p))
                             sigma BASE_RATE))),
         Raise AssertionError)).
Proof.
  intros Hc Hp. split; [| split; [| split]].
  - intros tS tK tT tV tR. rewrite !blackScholes_graph.
    apply Ascii.eqb_neq in Hc. rewrite Hc. reflexivity.
  - intros h p c Hk. rewrite optionGreeksFast_unfold.
    destruct (truthy_opt (iv (h p))).
    + apply (fast_rest_rejects p c h ch rest); assumption.
    + destruct (truthy_opt (npv (h p))).
      * destruct (fast_rest_rejects p c
                    (upd h p (with_iv (h p) (Some (fast_iv (h p))))) ch rest)
          as (h' & Hr & Hg); try assumption.
        { rewrite upd_eq. exact Hk. }
        exists h'. split; [exact Hr |].
        rewrite Hg, upd_eq. reflexivity.
      * exists h. split; reflexivity.
  - intros h p c Hk Hi Hn.
    rewrite optionGreeksFast_unfold, Hi, Hn. reflexivity.
  - intros h p Hk Hin o. unfold o.
    rewrite !optionGreeksFast_unfold. cbv zeta.
    destruct (truthy_opt (iv (h p))) eqn:Hi.
    + destruct (fast_rest_rejected p h ch rest Hk Hc Hp) as [Hoff Hon].
      split.
      * rewrite Hoff, upd_self. reflexivity.
      * intros sigma Hiv _ _ _ _. apply Hon, Hiv.
    + destruct Hin as [Hin | Hn]; [discriminate Hin |]. rewrite Hn.
      set (h1 := upd h p (with_iv (h p) (Some (fast_iv (h p))))).
      assert (Hk1 : kind (h1 p) = String ch rest).
      { unfold h1. rewrite upd_eq. exact Hk. }
      destruct (fast_rest_rejected p h1 ch rest Hk1 Hc Hp) as [Hoff Hon].
      split.
      * rewrite Hoff. reflexivity.
      * intros sigma Hiv _ _ _ _.
        rewrite (Hon sigma) by (unfold h1; rewrite upd_eq; exact Hiv).
        unfold h1. rewrite upd_upd, upd_eq. reflexivity.
Qed.

End EntryPoints.

Lemma missing_inputs_rejected_witness :
  @optionGreeksAuto no_root 0%nat true (sample "call" None None) =
  (sample "call" None None, Raise AssertionError) /\
  @optionGreeksFast no_root below_intrinsic 0%nat true (sample "call" None None) =
  (sample "call" None None, Raise AssertionError).
Proof.
  exact (@missing_inputs_rejected no_root below_intrinsic
           (sample "call" None None) 0%nat true eq_refl eq_refl).
Defined.

Lemma zero_iv_is_absent_witness :
  let h := sample "call" (Some 0) (Some 5) in
  let h1 := upd h 0%nat (with_iv (h 0%nat) (Some (1 / 5))) in
  @optionGreeksAuto (fixed_root (1 / 5)) 0%nat true h = auto_body 0%nat true h1 /\
  @optionGreeksFast (fixed_root (1 / 5)) (exact_vollib (1 / 5)) 0%nat true h =
  (fast_revalue 0%nat true ;;; @fast_greeks (exact_vollib (1 / 5)) 0%nat)%heap h1.
Proof.
  intros h h1.
  destruct (@zero_iv_is_absent (fixed_root (1 / 5)) (exact_vollib (1 / 5)) h 0%nat true
              (or_intror eq_refl)) as [_ Hsolve].
  assert (H5 : 5 <> 0) by lra.
  destruct (Hsolve 5 eq_refl H5) as (HA & HF & Hauto & Hfast & _).
  split.
  - rewrite Hauto, HA. reflexivity.
  - rewrite Hfast, HF. reflexivity.
Defined.

(** C4 as stated fails on the valuation function: the kind ["x"] starts
    with neither [c] nor [p], and it is valued, as a put, without error. *)
Lemma unknown_kind_not_rejected :
  lower "x" <> "c"%char /\ lower "x" <> "p"%char /\
  blackScholes_pyTorch "x" (Leaf 0 100 true) (Leaf 1 100 false) (Leaf 2 1 true)
    (Leaf 3 (1 / 5) true) (Leaf 4 BASE_RATE false) =
  Ok (bs_leaves false true false true true false 100 100 1 (1 / 5) BASE_RATE) /\
  forall e,
    blackScholes_pyTorch "x" (Leaf 0 100 true) (Leaf 1 100 false) (Leaf 2 1 true)
      (Leaf 3 (1 / 5) true) (Leaf 4 BASE_RATE false) <> Raise e.
Proof.
  split; [intro E; discriminate E |].
  split; [intro E; discriminate E |].
  split; [reflexivity |].
  intros e E. discriminate E.
Defined.

Lemma unknown_kind_is_put_or_rejected_witness :
  let h := sample "x" (Some (1 / 5)) None in
  blackScholes_pyTorch "x" (Leaf 0 100 true) (Leaf 1 100 false) (Leaf 2 1 true)
    (Leaf 3 (1 / 5) true) (Leaf 4 BASE_RATE false) =
  blackScholes_pyTorch "put" (Leaf 0 100 true) (Leaf 1 100 false) (Leaf 2 1 true)
    (Leaf 3 (1 / 5) true) (Leaf 4 BASE_RATE false) /\
  @optionGreeksFast no_root below_intrinsic 0%nat true h =
  (upd h 0%nat (with_npv (h 0%nat) (Some (Formula.put 100 100 1 (1 / 5) BASE_RATE))),
   Raise AssertionError).
Proof.
  intros h.
  assert (Hc : lower "x" <> "c"%char) by (intro E; discriminate E).
  assert (Hp : lower "x" <> "p"%char) by (intro E; discriminate E).
  destruct (@unknown_kind_is_put_or_rejected no_root below_intrinsic "x" "" Hc Hp)
    as (Hput & _ & _ & Hfast).
  split; [apply Hput |].
  assert (Hiv : truthy_opt (iv (h 0%nat)) = true).
  { apply (truthy_nonzero (1 / 5)). lra. }
  destruct (Hfast h 0%nat eq_refl (or_introl Hiv)) as [_ Hon].
  rewrite Hiv in Hon.
  apply (Hon (1 / 5) eq_refl); unfold h, sample; cbn [underlying strike expiry]; lra.
Defined.

(** ** What the public operations leave untouched *)

Lemma same_contract_refl (o : Option_) : same_contract o o.
Proof. repeat split. Qed.

Lemma frame_refl (p : loc) (h : heap) : frame p h h.
Proof. split; [apply same_contract_refl | reflexivity]. Qed.

Lemma frame_trans (p : loc) (h1 h2 h3 : heap) :
  frame p h1 h2 -> frame p h2 h3 -> frame p h1 h3.
Proof.
  intros [(k1 & u1 & s1 & e1) o1] [(k2 & u2 & s2 & e2) o2].
  split; [repeat split; congruence |].
  intros q Hq. rewrite o2, o1 by assumption. reflexivity.
Qed.

Lemma frame_upd (p : loc) (h : heap) (o : Option_) :
  same_contract (h p) o -> frame p h (upd h p o).
Proof.
  intros Ho. split.
  - rewrite upd_eq. exact Ho.
  - intros q Hq. apply upd_neq, Hq.
Qed.

Section Framed.

Context {A B : Type} (p : loc).

Lemma framed_ret (post : heap -> A -> Prop) (a : A) :
  (forall h, post h a) -> framed p post (ret a).
Proof.
  intros Hp h. split; [apply frame_refl |].
  simpl. intros a' E. injection E as <-. apply Hp.
Qed.

Lemma framed_lift (r : result A) : framed p anything (lift r).
Proof. intros h. split; [apply frame_refl | intros; exact I]. Qed.

Lemma framed_weaken (post : heap -> A -> Prop) (m : M A) :
  framed p post m -> framed p anything m.
Proof. intros Hm h. split; [apply Hm | intros; exact I]. Qed.

Lemma framed_bind (post : heap -> B -> Prop) (m : M A) (k : A -> M B) :
  framed p anything m -> (forall a, framed p post (k a)) ->
  framed p post (bind m k).
Proof.
  intros Hm Hk h. unfold bind.
  destruct (Hm h) as [Fm _]. destruct (m h) as [h1 [a | e]]; simpl in *.
  - destruct (Hk a h1) as [Fk Pk]. split; [| exact Pk].
    apply (frame_trans p h h1); assumption.
  - split; [exact Fm | intros a E; discriminate E].
Qed.

Lemma framed_try (post : heap -> A -> Prop) (body handler : M A) :
  framed p post body -> framed p post handler ->
  framed p post (try_except body handler).
Proof.
  intros Hb Hh h. unfold try_except.
  destruct (Hb h) as [Fb Pb]. destruct (body h) as [h1 [a | e]]; simpl in *.
  - split; assumption.
  - destruct (Hh h1) as [Fh Ph]. split; [| exact Ph].
    apply (frame_trans p h h1); assumption.
Qed.

Lemma framed_if (post : heap -> A -> Prop) (c : bool) (m1 m2 : M A) :
  framed p post m1 -> framed p post m2 -> framed p post (if c then m1 else m2).
Proof. destruct c; auto. Qed.

End Framed.

Lemma framed_get (p : loc) : framed p anything (get p).
Proof. intros h. split; [apply frame_refl | intros; exact I]. Qed.

Lemma framed_assert (p : loc) (b : bool) : framed p anything (py_assert b).
Proof. apply framed_lift. Qed.

Lemma framed_set_iv (p : loc) (v : option R) : framed p anything (set_iv p v).
Proof.
  intros h. split; [| intros; exact I].
  apply frame_upd. repeat split.
Qed.

Lemma framed_set_npv (p : loc) (v : option R) : framed p anything (set_npv p v).
Proof.
  intros h. split; [| intros; exact I].
  apply frame_upd. repeat split.
Qed.

Lemma framed_set_greeks (p : loc) (g : option Greeks) :
  framed p anything (set_greeks p g).
Proof.
  intros h. split; [| intros; exact I].
  apply frame_upd. repeat split.
Qed.

(** [return option.iv] *)
Lemma framed_return_iv (p : loc) :
  framed p (fun h v => v = iv (h p)) (bind (get p) (fun o => ret (iv o))).
Proof.
  intros h. split; [apply frame_refl |].
  simpl. intros v E. injection E as <-. reflexivity.
Qed.

Create HintDb framed.
#[local] Hint Resolve framed_lift framed_get framed_assert framed_set_iv
  framed_set_npv framed_set_greeks framed_return_iv : framed.
#[local] Hint Extern 1 (framed _ _ (ret _)) =>
  apply framed_ret; intros; first [exact I | reflexivity] : framed.
#[local] Hint Extern 2 (framed _ _ (try_except _ _)) => apply framed_try : framed.
#[local] Hint Extern 2 (framed _ _ (if _ then _ else _)) => apply framed_if : framed.
#[local] Hint Extern 2 (framed _ _ (match ?x with _ => _ end)) => destruct x : framed.
#[local] Hint Extern 3 (framed _ _ (bind _ _)) => apply framed_bind; [| intros] : framed.

Section FrameOfOperations.

Context `{RF : RootFinder} `{VL : Vollib}.

Lemma ivFromOptionAuto_framed (p : loc) (guess : R) :
  framed p (fun h v => v = iv (h p)) (ivFromOptionAuto p guess).
Proof.
  unfold ivFromOptionAuto. apply framed_bind; [| intros; apply framed_return_iv].
  auto 10 with framed.
Qed.

Lemma ivFromOptionFast_framed (p : loc) :
  framed p (fun h v => v = iv (h p)) (ivFromOptionFast p).
Proof.
  unfold ivFromOptionFast. apply framed_bind; [| intros; apply framed_return_iv].
  apply framed_try; [auto 10 with framed |].
  apply framed_bind; [| intros; apply framed_set_iv].
  apply (framed_weaken p _ _ (ivFromOptionAuto_framed p 0)).
Qed.

Lemma optionGreeksAuto_framed (p : loc) (c : bool) :
  framed p (fun _ q => q = p) (optionGreeksAuto p c).
Proof.
  pose proof (fun g => framed_weaken p _ _ (ivFromOptionAuto_framed p g)) as Hiv.
  unfold optionGreeksAuto. auto 20 with framed.
Qed.

Lemma optionGreeksFast_framed (p : loc) (c : bool) :
  framed p (fun _ q => q = p) (optionGreeksFast p c).
Proof.
  pose proof (framed_weaken p _ _ (ivFromOptionFast_framed p)) as Hiv.
  unfold optionGreeksFast. auto 30 with framed.
Qed.

(** C10. Each public operation leaves [kind], [underlying], [strike] and
    [expiry] of its option as they were, and every other object of the
    store untouched; the two solvers return the [iv] they leave in the
    option, the two entry points return the reference they were given. *)
Theorem public_operations_frame (h : heap) (p : loc) (guess : R) (calculateNPV : bool) :
  (frame p h (fst (ivFromOptionAuto p guess h)) /\
   forall v, snd (ivFromOptionAuto p guess h) = Ok v ->
             v = iv (fst (ivFromOptionAuto p guess h) p)) /\
  (frame p h (fst (ivFromOptionFast p h)) /\
   forall v, snd (ivFromOptionFast p h) = Ok v ->
             v = iv (fst (ivFromOptionFast p h) p)) /\
  (frame p h (fst (optionGreeksAuto p calculateNPV h)) /\
   forall q, snd (optionGreeksAuto p calculateNPV h) = Ok q -> q = p) /\
  (frame p h (fst (optionGreeksFast p calculateNPV h)) /\
   forall q, snd (optionGreeksFast p calculateNPV h) = Ok q -> q = p).
Proof.
  split; [apply (ivFromOptionAuto_framed p guess h) |].
  split; [apply (ivFromOptionFast_framed p h) |].
  split; [apply (optionGreeksAuto_framed p calculateNPV h) |].
  apply (optionGreeksFast_framed p calculateNPV h).
Qed.

End FrameOfOperations.

(** * Further properties *)

(** ** The normal density and the monotonicity of [Phi] *)

Lemma pdf_pos (x : R) : 0 < Normal.pdf x.
Proof.
  unfold Normal.pdf. apply Rdiv_lt_0_compat; [apply exp_pos |].
  apply sqrt_lt_R0. pose proof PI_RGT_0. lra.
Qed.

Lemma Phi_increasing (x y : R) : x < y -> Phi x < Phi y.
Proof.
  intros Hxy.
  destruct (MVT_cor2 Phi Normal.pdf x y Hxy) as (c & Hc & _).
  - intros z _. apply Phi_derive.
  - pose proof (pdf_pos c). nra.
Qed.

Lemma Phi_above_half (x : R) : 0 < x -> 1 / 2 < Phi x.
Proof. intros Hx. rewrite <- Phi_0. apply Phi_increasing, Hx. Qed.

Lemma pdf_shift (S K T sigma r : R) :
  0 < S -> 0 < K -> 0 < T -> 0 < sigma ->
  K * exp (- (r * T)) * Normal.pdf (Formula.d2 S K T sigma r) =
  S * Normal.pdf (Formula.d1 S K T sigma r).
Proof.
  intros HS HK HT HV.
  assert (HsT : 0 < sqrt T) by (apply sqrt_lt_R0; assumption).
  assert (HTT : sqrt T * sqrt T = T) by (apply sqrt_def; lra).
  assert (HSK : 0 < S / K) by (apply Rdiv_lt_0_compat; assumption).
  unfold Normal.pdf, Formula.d2.
  set (a := Formula.d1 S K T sigma r).
  assert (Ha : a * (sigma * sqrt T) = ln (S / K) + (r + sigma ^ 2 / 2) * T).
  { unfold a, Formula.d1. field. split; lra. }
  replace (- ((a - sigma * sqrt T) * (a - sigma * sqrt T)) / 2)
    with (- (a * a) / 2 + (ln (S / K) + r * T)).
  - rewrite exp_plus, exp_plus, exp_ln by assumption.
    assert (HE : exp (- (r * T)) * exp (r * T) = 1).
    { rewrite <- exp_plus. replace (- (r * T) + r * T) with 0 by ring. apply exp_0. }
    assert (0 < sqrt (2 * PI)) by (apply sqrt_lt_R0; pose proof PI_RGT_0; lra).
    transitivity (S * (exp (- (r * T)) * exp (r * T)) * (exp (- (a * a) / 2) / sqrt (2 * PI))).
    + field. split; lra.
    + rewrite HE. ring.
  - transitivity (- (a * a) / 2 + (a * (sigma * sqrt T) - sigma ^ 2 * (sqrt T * sqrt T) / 2)).
    + rewrite Ha, HTT. field.
    + field.
Qed.

(** ** The gradient of the valuation graph *)

Lemma d1_graph_item (tS tK tT tV tR : tensor) :
  item (d1_graph tS tK tT tV tR) =
  Formula.d1 (item tS) (item tK) (item tT) (item tV) (item tR).
Proof. reflexivity. Qed.

Lemma pdf_even (x : R) : Normal.pdf (- x) = Normal.pdf x.
Proof.
  unfold Normal.pdf. replace (- x * - x) with (x * x) by ring. reflexivity.
Qed.

Section Gradient.

Variables (x : nat) (tS tK tT tV tR : tensor).

Let S := item tS.
Let K := item tK.
Let T := item tT.
Let V := item tV.
Let r := item tR.
Let a := Formula.d1 S K T V r.
Let a' := item (D x (d1_graph tS tK tT tV tR)).
Let w' := item (D x tV) * sqrt T + V * (item (D x tT) / (2 * sqrt T)).
Let KE' :=
  item (D x tK) * exp (- r * T)
  + K * (exp (- r * T) * (- item (D x tR) * T + - r * item (D x tT))).

Lemma D_call_raw :
  item (D x (bs_graph true tS tK tT tV tR)) =
  (item (D x tS) * Phi a + S * (Normal.pdf a * a'))
  - (KE' * Phi (a - V * sqrt T)
     + K * exp (- r * T) * (Normal.pdf (a - V * sqrt T) * (a' - w'))).
Proof. reflexivity. Qed.

Lemma D_put_raw :
  item (D x (bs_graph false tS tK tT tV tR)) =
  (KE' * Phi (- (a - V * sqrt T))
   + K * exp (- r * T) * (Normal.pdf (- (a - V * sqrt T)) * - (a' - w')))
  - (item (D x tS) * Phi (- a) + S * (Normal.pdf (- a) * - a')).
Proof. reflexivity. Qed.

Hypotheses (HS : 0 < S) (HK : 0 < K) (HT : 0 < T) (HV : 0 < V).

(** The density terms of the two [Cdf] nodes cancel but for the part
    that comes from [sigma * sqrt T]. *)
Lemma D_call_item :
  item (D x (bs_graph true tS tK tT tV tR)) =
  item (D x tS) * Phi a + S * Normal.pdf a * w' - KE' * Phi (a - V * sqrt T).
Proof.
  rewrite D_call_raw.
  pose proof (pdf_shift S K T V r HS HK HT HV) as Hshift.
  unfold Formula.d2 in Hshift. fold a in Hshift.
  replace (- r * T) with (- (r * T)) in * by ring.
  set (p2 := Normal.pdf (a - V * sqrt T)) in *.
  set (E := exp (- (r * T))) in *.
  transitivity (item (D x tS) * Phi a + S * Normal.pdf a * a'
                - KE' * Phi (a - V * sqrt T) - (K * E * p2) * (a' - w')).
  - ring.
  - rewrite Hshift. ring.
Qed.

Lemma D_put_item :
  item (D x (bs_graph false tS tK tT tV tR)) =
  KE' * Phi (- (a - V * sqrt T)) + S * Normal.pdf a * w' - item (D x tS) * Phi (- a).
Proof.
  rewrite D_put_raw, !pdf_even.
  pose proof (pdf_shift S K T V r HS HK HT HV) as Hshift.
  unfold Formula.d2 in Hshift. fold a in Hshift.
  replace (- r * T) with (- (r * T)) in * by ring.
  set (p2 := Normal.pdf (a - V * sqrt T)) in *.
  set (E := exp (- (r * T))) in *.
  transitivity (KE' * Phi (- (a - V * sqrt T)) - item (D x tS) * Phi (- a)
                + S * Normal.pdf a * a' - (K * E * p2) * (a' - w')).
  - ring.
  - rewrite Hshift. ring.
Qed.

End Gradient.

(** ** Closed forms of the Greeks *)

Section Closed.

Variables (b bS bK bT bV bR : bool) (S K T V r : R).
Hypotheses (HS : 0 < S) (HK : 0 < K) (HT : 0 < T) (HV : 0 < V).

Lemma bs_delta_closed :
  item (D 0 (bs_leaves b bS bK bT bV bR S K T V r)) =
  if b then Phi (Formula.d1 S K T V r) else Phi (Formula.d1 S K T V r) - 1.
Proof.
  assert (HsT : 0 < sqrt T) by (apply sqrt_lt_R0; assumption).
  unfold bs_leaves. destruct b.
  - rewrite D_call_item by assumption. cbn [D item Nat.eqb]. field. lra.
  - rewrite D_put_item by assumption. cbn [D item Nat.eqb].
    rewrite (Phi_neg (Formula.d1 S K T V r)). field. lra.
Qed.

Lemma bs_vega_closed :
  item (D 3 (bs_leaves b bS bK bT bV bR S K T V r)) =
  S * Normal.pdf (Formula.d1 S K T V r) * sqrt T.
Proof.
  assert (HsT : 0 < sqrt T) by (apply sqrt_lt_R0; assumption).
  unfold bs_leaves. destruct b.
  - rewrite D_call_item by assumption. cbn [D item Nat.eqb]. field. lra.
  - rewrite D_put_item by assumption. cbn [D item Nat.eqb]. field. lra.
Qed.

Lemma bs_dT_closed :
  item (D 2 (bs_leaves b bS bK bT bV bR S K T V r)) =
  S * Normal.pdf (Formula.d1 S K T V r) * V / (2 * sqrt T)
  + (if b then r * K * exp (- (r * T)) * Phi (Formula.d2 S K T V r)
     else - (r * K * exp (- (r * T)) * Phi (- Formula.d2 S K T V r))).
Proof.
  assert (HsT : 0 < sqrt T) by (apply sqrt_lt_R0; assumption).
  unfold bs_leaves, Formula.d2. destruct b.
  - rewrite D_call_item by assumption. cbn [D item Nat.eqb].
    replace (- r * T) with (- (r * T)) by ring. field. lra.
  - rewrite D_put_item by assumption. cbn [D item Nat.eqb].
    replace (- r * T) with (- (r * T)) by ring. field. lra.
Qed.

(** The derivative of [d1] in the underlying. *)
Lemma d1_partial_S :
  derivable_pt_lim (fun s => Formula.d1 s K T V r) S (/ (S * V * sqrt T)).
Proof.
  assert (HsT : 0 < sqrt T) by (apply sqrt_lt_R0; assumption).
  pose (g := d1_graph (Leaf 0 S bS) (Leaf 1 K bK) (Leaf 2 T bT) (Leaf 3 V bV) (Leaf 4 r bR)).
  replace (/ (S * V * sqrt T)) with (item (D 0 g)).
  - apply (derivable_pt_lim_ext (fun y => item (set_leaf 0 y g))).
    + intro y. reflexivity.
    + apply Autograd.D_correct.
      * assert (0 < S / K) by (apply Rdiv_lt_0_compat; assumption).
        assert (V * sqrt T <> 0) by (apply Rmult_integral_contrapositive; split; lra).
        assert (K <> 0) by lra. assert (2 <> 0) by lra.
        simpl. tauto.
      * simpl. intuition discriminate.
  - unfold g, d1_graph. cbn [D item Nat.eqb]. field. repeat split; lra.
Qed.

Lemma Phi_d1_partial_S :
  derivable_pt_lim (fun s => Phi (Formula.d1 s K T V r)) S
    (Normal.pdf (Formula.d1 S K T V r) / (S * V * sqrt T)).
Proof.
  unfold Rdiv.
  apply (derivable_pt_lim_comp (fun s => Formula.d1 s K T V r) Phi).
  - apply d1_partial_S.
  - apply Phi_derive.
Qed.

End Closed.

(** The second derivative in the underlying. *)
Lemma bs_gamma_closed (b bS bK bT bV bR : bool) (S K T V r : R) :
  0 < S -> 0 < K -> 0 < T -> 0 < V ->
  item (D 0 (D 0 (bs_leaves b bS bK bT bV bR S K T V r))) =
  Normal.pdf (Formula.d1 S K T V r) / (S * V * sqrt T).
Proof.
  intros HS HK HT HV.
  apply (uniqueness_limite
           (fun s => item (D 0 (bs_leaves b bS bK bT bV bR s K T V r))) S).
  - apply bs_second_S; assumption.
  - apply (derivable_pt_lim_locally_ext
             (fun s => (if b then Phi (Formula.d1 s K T V r)
                        else Phi (Formula.d1 s K T V r) - 1))
             _ S (S / 2) (S + 1)); [lra | |].
    + intros z Hz. symmetry. apply bs_delta_closed; lra.
    + destruct b.
      * apply (Phi_d1_partial_S bS bK bT bV bR); assumption.
      * replace (Normal.pdf (Formula.d1 S K T V r) / (S * V * sqrt T))
          with (Normal.pdf (Formula.d1 S K T V r) / (S * V * sqrt T) - 0) by ring.
        apply (derivable_pt_lim_minus (fun s => Phi (Formula.d1 s K T V r)) (fun _ => 1)).
        -- apply (Phi_d1_partial_S bS bK bT bV bR); assumption.
        -- apply derivable_pt_lim_const.
Qed.

(** ** The exact entry point, step by step *)

Lemma deriveGreeks2_default (c : ascii) (rest : string) (s0 k t sigma r : R) :
  deriveGreeks2 (String c rest) s0 k t sigma r which_default =
  Ok [PyTensor (Const (item (D 0 (D 0
        (bs_leaves (Ascii.eqb (lower c) "c") true false false false false
           s0 k t sigma r)))))].
Proof.
  unfold deriveGreeks2, which_default. cbn [py_map].
  rewrite runForIdx_0. reflexivity.
Qed.

Lemma auto_body_eval (p : loc) (c : bool) (h : heap)
    (ch : ascii) (rest : string) (sigma : R) :
  kind (h p) = String ch rest -> iv (h p) = Some sigma ->
  auto_body p c h = (upd h p (auto_record (h p) c sigma), Ok p).
Proof.
  intros Hk Hiv. unfold auto_body.
  unfold bind at 1. unfold get at 1.
  rewrite Hiv. cbn [float_]. unfold bind at 1. unfold lift at 1.
  rewrite Hk. unfold bind at 1. unfold lift at 1.
  rewrite deriveGreeks1_eval. cbv zeta.
  unfold bind at 1. unfold lift at 1. rewrite deriveGreeks2_default.
  unfold bind at 1. unfold lift at 1. cbn [unpack1].
  unfold auto_record, auto_greeks. rewrite Hk. cbn [is_call].
  rewrite bs_leaves_item.
  destruct c; unfold bind, set_npv, set_greeks, ret, Greeks_.
  - rewrite upd_eq, upd_upd. unfold with_greeks, with_npv. cbn [kind underlying strike expiry iv npv greeks unwrap item].
    rewrite Hk, Hiv. reflexivity.
  - unfold with_greeks. cbn [unwrap item]. rewrite Hk, Hiv. reflexivity.
Qed.

Lemma auto_body_outcome (p : loc) (c : bool) (h : heap) :
  auto_body p c h =
  match auto_outcome (h p) c with
  | Ok o' => (upd h p o', Ok p)
  | Raise e => (h, Raise e)
  end.
Proof.
  unfold auto_outcome.
  destruct (iv (h p)) as [sigma |] eqn:Hiv.
  - destruct (kind (h p)) as [| ch rest] eqn:Hk.
    + unfold auto_body. unfold bind at 1. unfold get at 1.
      rewrite Hiv, Hk. reflexivity.
    + rewrite (auto_body_eval p c h ch rest sigma Hk Hiv). reflexivity.
  - unfold auto_body. unfold bind at 1. unfold get at 1.
    rewrite Hiv. reflexivity.
Qed.

Lemma revalued_value (o : Option_) (ch : ascii) (rest : string) (sigma : R) :
  kind o = String ch rest -> iv o = Some sigma ->
  revalued o true =
  with_npv o (Some (Formula.npv (Ascii.eqb (lower ch) "c") (underlying o) (strike o)
                      (expiry o) sigma BASE_RATE)).
Proof.
  intros Hk Hiv. unfold revalued, optionNPV.
  rewrite Hiv, Hk. cbn [float_ rbind].
  rewrite blackScholes_graph, bs_graph_item. reflexivity.
Qed.

Lemma fast_revalue_eval (p : loc) (c : bool) (h : heap) :
  fast_revalue p c h = (upd h p (revalued (h p) c), Ok tt).
Proof.
  unfold fast_revalue, revalued. destruct c.
  - unfold try_except, bind, get, lift, set_npv, ret.
    destruct (float_ (iv (h p))) as [sigma |]; cbn [rbind].
    + destruct (optionNPV _ _ _ _ _ _); [reflexivity |].
      rewrite upd_self. reflexivity.
    + rewrite upd_self. reflexivity.
  - unfold ret. rewrite upd_self. reflexivity.
Qed.

Section FastSteps.

Context `{VL : Vollib}.

Lemma fast_greeks_outcome (p : loc) (h : heap) :
  fast_greeks p h =
  match fast_outcome (h p) with
  | Ok g => (upd h p (with_greeks (h p) (Some g)), Ok p)
  | Raise e => (h, Raise e)
  end.
Proof.
  unfold fast_greeks, fast_outcome, vollib_greeks.
  unfold bind at 1. unfold get at 1.
  unfold bind at 1. unfold lift at 1.
  destruct (str_head (kind (h p))) as [c |]; cbn [rbind]; [| reflexivity].
  unfold bind at 1. unfold py_assert, lift.
  destruct (Ascii.eqb (lower c) "c" || Ascii.eqb (lower c) "p")%bool;
    cbn [rbind]; [| reflexivity].
  unfold bind, set_greeks, ret, Greeks_.
  destruct (bs_ga_theta _ _ _ _ _ _); [| reflexivity].
  destruct (bs_ga_delta _ _ _ _ _ _); [| reflexivity].
  destruct (bs_ga_vega _ _ _ _ _ _); [| reflexivity].
  destruct (bs_ga_gamma _ _ _ _ _ _); reflexivity.
Qed.

Lemma fast_rest_eval (p : loc) (c : bool) (h : heap) :
  (fast_revalue p c ;;; fast_greeks p)%heap h =
  match fast_outcome (revalued (h p) c) with
  | Ok g => (upd h p (with_greeks (revalued (h p) c) (Some g)), Ok p)
  | Raise e => (upd h p (revalued (h p) c), Raise e)
  end.
Proof.
  unfold bind. rewrite fast_revalue_eval, fast_greeks_outcome, upd_eq.
  destruct (fast_outcome (revalued (h p) c)); [| reflexivity].
  rewrite upd_upd. reflexivity.
Qed.

(** The library sees the contract and [iv], nothing else. *)
Lemma fast_outcome_revalued (o : Option_) (c : bool) :
  fast_outcome (revalued o c) = fast_outcome o.
Proof.
  unfold revalued. destruct c; [| reflexivity].
  destruct (rbind _ _); reflexivity.
Qed.

Lemma fast_outcome_with_greeks (o : Option_) (g : option Greeks) :
  fast_outcome (with_greeks o g) = fast_outcome o.
Proof. reflexivity. Qed.

End FastSteps.

Lemma revalued_idem (o : Option_) (c : bool) :
  revalued (revalued o c) c = revalued o c.
Proof.
  unfold revalued. destruct c; [| reflexivity].
  destruct (rbind (float_ (iv o)) _) as [t |] eqn:E.
  - cbn [iv kind underlying strike expiry with_npv]. rewrite E. reflexivity.
  - rewrite E. reflexivity.
Qed.

Lemma revalued_with_greeks (o : Option_) (c : bool) (g : option Greeks) :
  revalued (with_greeks o g) c = with_greeks (revalued o c) g.
Proof.
  unfold revalued. destruct c; [| reflexivity].
  cbn [iv kind underlying strike expiry with_greeks].
  destruct (rbind (float_ (iv o)) _); reflexivity.
Qed.

Lemma auto_record_idem (o : Option_) (c : bool) (sigma : R) :
  auto_record (auto_record o c sigma) c sigma = auto_record o c sigma.
Proof. unfold auto_record. destruct c; reflexivity. Qed.

Lemma auto_outcome_idem (o o' : Option_) (c : bool) :
  auto_outcome o c = Ok o' -> auto_outcome o' c = Ok o'.
Proof.
  unfold auto_outcome.
  destruct (iv o) as [sigma |] eqn:Hiv; cbn [float_ rbind]; [| discriminate].
  destruct (kind o) as [| ch rest] eqn:Hk; cbn [str_head rbind]; [discriminate |].
  intros E. injection E as <-.
  cbn [iv kind auto_record]. rewrite Hiv, Hk. cbn [float_ str_head rbind].
  rewrite auto_record_idem. reflexivity.
Qed.

(** ** First-order Greeks *)

(** X3. For positive inputs the Greeks of [deriveGreeks1] have the closed
    forms of the model: delta is [Phi d1] for a call and [Phi d1 - 1] for a
    put; vega is [S * pdf d1 * sqrt T / 100], the same for both kinds; theta
    is minus the time derivative
    [S * pdf d1 * sigma / (2 sqrt T) + r K exp (-r T) Phi d2] (call) or
    [... - r K exp (-r T) Phi (-d2)] (put), divided by 365.25. *)
Theorem deriveGreeks1_closed_forms
    (kind : string) (ch : ascii) (rest : string) (S K T sigma r : R) :
  kind = String ch rest ->
  0 < S -> 0 < K -> 0 < T -> 0 < sigma ->
  let a := Formula.d1 S K T sigma r in
  let carry := r * K * exp (- (r * T)) in
  exists npv theta delta vega,
    deriveGreeks1 kind S K T sigma r = Ok (npv, theta, delta, vega) /\
    unwrap delta =
      PyFloat (if Ascii.eqb (lower ch) "c" then Phi a else Phi a - 1) /\
    unwrap vega = PyFloat (S * Normal.pdf a * sqrt T / 100) /\
    unwrap theta =
      PyFloat (- (S * Normal.pdf a * sigma / (2 * sqrt T)
                  + (if Ascii.eqb (lower ch) "c"
                     then carry * Phi (Formula.d2 S K T sigma r)
                     else - (carry * Phi (- Formula.d2 S K T sigma r))))
               / 365.25).
Proof.
  intros -> HS HK HT HV a carry.
  rewrite deriveGreeks1_eval. do 4 eexists.
  split; [reflexivity |]. cbn [unwrap item].
  rewrite bs_delta_closed, bs_vega_closed, bs_dT_closed by assumption.
  repeat split.
Qed.

Lemma deriveGreeks1_closed_forms_witness :
  exists npv theta delta vega,
    deriveGreeks1 "put" 100 95 (1 / 2) (3 / 10) BASE_RATE
    = Ok (npv, theta, delta, vega) /\
    unwrap delta = PyFloat (Phi (Formula.d1 100 95 (1 / 2) (3 / 10) BASE_RATE) - 1).
Proof.
  destruct (deriveGreeks1_closed_forms "put" "p" "ut" 100 95 (1 / 2) (3 / 10) BASE_RATE
              eq_refl) as (n & t & d & v & H & Hd & _); try lra.
  exists n, t, d, v. split; [exact H | exact Hd].
Defined.

(** ** Second-order Greeks *)

(** X4. For positive inputs the default call of [deriveGreeks2] returns the
    single value [pdf d1 / (S * sigma * sqrt T)], the same for a call and a
    put. *)
Theorem deriveGreeks2_gamma_closed_form
    (kind : string) (ch : ascii) (rest : string) (S K T sigma r : R) :
  kind = String ch rest ->
  0 < S -> 0 < K -> 0 < T -> 0 < sigma ->
  deriveGreeks2 kind S K T sigma r which_default =
  Ok [PyTensor (Const (Normal.pdf (Formula.d1 S K T sigma r) / (S * sigma * sqrt T)))].
Proof.
  intros -> HS HK HT HV.
  rewrite deriveGreeks2_default, bs_gamma_closed by assumption. reflexivity.
Qed.

Lemma deriveGreeks2_gamma_closed_form_witness :
  deriveGreeks2 "call" 100 95 (1 / 2) (3 / 10) BASE_RATE which_default =
  Ok [PyTensor (Const (Normal.pdf (Formula.d1 100 95 (1 / 2) (3 / 10) BASE_RATE)
                       / (100 * (3 / 10) * sqrt (1 / 2))))].
Proof.
  apply (deriveGreeks2_gamma_closed_form "call" "c" "all" 100 95 (1 / 2) (3 / 10)
           BASE_RATE eq_refl); lra.
Defined.

Lemma deriveGreeks2_vomma_witness :
  exists (vega_ : R -> R) (d2V : R),
    derivable_pt_lim vega_ (3 / 10) d2V /\
    deriveGreeks2 "call" 100 95 (1 / 2) (3 / 10) BASE_RATE [3%Z]
    = Ok [PyTensor (Const d2V)].
Proof.
  destruct (deriveGreeks2_vomma "c" "all" 100 95 (1 / 2) (3 / 10) BASE_RATE)
    as (f & d & _ & Hd & Hr); try lra.
  exists f, d. split; [exact Hd | exact Hr].
Defined.

(** Which indices one pass serves. *)
Lemma runForIdx_cases (ch : ascii) (rest : string) (s0 k t sigma r : R) (i : Z) :
  (i = 0%Z \/ i = 3%Z \/ i = 4%Z) \/
  ((i = 1%Z \/ i = 2%Z) /\
   runForIdx (String ch rest) s0 k t sigma r i = Raise TypeError) \/
  ((-5 <= i < 0)%Z /\
   runForIdx (String ch rest) s0 k t sigma r i = Raise RuntimeError) \/
  ((i < -5 \/ 5 <= i)%Z /\
   runForIdx (String ch rest) s0 k t sigma r i = Raise IndexError).
Proof.
  destruct (Z.eq_dec i 0) as [-> | H0]; [left; tauto |].
  destruct (Z.eq_dec i 3) as [-> | H3]; [left; tauto |].
  destruct (Z.eq_dec i 4) as [-> | H4]; [left; tauto |].
  right.
  destruct (Z.eq_dec i 1) as [-> | H1];
    [left; split; [tauto | apply runForIdx_1] |].
  destruct (Z.eq_dec i 2) as [-> | H2];
    [left; split; [tauto | apply runForIdx_2] |].
  right.
  assert (E0 : (i =? 0)%Z = false) by (apply Z.eqb_neq; assumption).
  assert (E1 : (i =? 1)%Z = false) by (apply Z.eqb_neq; assumption).
  assert (E2 : (i =? 2)%Z = false) by (apply Z.eqb_neq; assumption).
  assert (E3 : (i =? 3)%Z = false) by (apply Z.eqb_neq; assumption).
  assert (E4 : (i =? 4)%Z = false) by (apply Z.eqb_neq; assumption).
  unfold runForIdx. rewrite blackScholes_graph, E0, E1, E2, E3, E4.
  cbn [rbind]. unfold py_getitem.
  change (Z.of_nat (List.length
            [Leaf 0 s0 false; Leaf 1 k false; Leaf 2 t false; Leaf 3 sigma false;
             Leaf 4 r false])) with 5%Z.
  destruct (Z.ltb_spec i 0) as [Hneg | Hpos].
  - destruct (Z_lt_ge_dec i (-5)) as [Hlow | Hhigh].
    + right. split; [lia |].
      replace ((0 <=? i + 5)%Z) with false by (symmetry; apply Z.leb_gt; lia).
      reflexivity.
    + left. split; [lia |].
      assert (Hi : i = (-5)%Z \/ i = (-4)%Z \/ i = (-3)%Z \/ i = (-2)%Z \/ i = (-1)%Z)
        by lia.
      destruct Hi as [-> | [-> | [-> | [-> | ->]]]]; reflexivity.
  - right. split; [lia |].
    replace ((i <? 5)%Z) with false by (symmetry; apply Z.ltb_ge; lia).
    rewrite andb_false_r. reflexivity.
Qed.

Lemma runForIdx_served (ch : ascii) (rest : string) (s0 k t sigma r : R) (i : Z) :
  served i -> exists v, runForIdx (String ch rest) s0 k t sigma r i = Ok v.
Proof.
  intros [-> | [-> | ->]]; eexists;
    [apply runForIdx_0 | apply runForIdx_3 | apply runForIdx_4].
Qed.

Lemma runForIdx_refused (ch : ascii) (rest : string) (s0 k t sigma r : R) (i : Z) :
  ~ served i -> exists e, runForIdx (String ch rest) s0 k t sigma r i = Raise e.
Proof.
  intros Hn.
  destruct (runForIdx_cases ch rest s0 k t sigma r i)
    as [Hs | [[_ H] | [[_ H] | [_ H]]]]; [contradiction | | |]; eexists; exact H.
Qed.

(** X7. For a non-empty kind and positive inputs, [deriveGreeks2] returns a
    list exactly when every requested index is 0, 3 or 4, and that list has
    one entry per requested index; any other index makes the whole call
    raise. *)
Theorem deriveGreeks2_serves_0_3_4
    (ch : ascii) (rest : string) (s0 k t sigma r : R) (which : list Z) :
  0 < s0 -> 0 < k -> 0 < t -> 0 < sigma ->
  (Forall served which ->
   exists l, deriveGreeks2 (String ch rest) s0 k t sigma r which = Ok l /\
             List.length l = List.length which) /\
  (forall l, deriveGreeks2 (String ch rest) s0 k t sigma r which = Ok l ->
             Forall served which /\ List.length l = List.length which) /\
  (~ Forall served which ->
   exists e, deriveGreeks2 (String ch rest) s0 k t sigma r which = Raise e).
Proof.
  intros _ _ _ _.
  assert (Hboth :
    (Forall served which ->
     exists l, deriveGreeks2 (String ch rest) s0 k t sigma r which = Ok l /\
               List.length l = List.length which) /\
    (forall l, deriveGreeks2 (String ch rest) s0 k t sigma r which = Ok l ->
               Forall served which /\ List.length l = List.length which)).
  { unfold deriveGreeks2. induction which as [| i which [IHok IHonly]].
    - split.
      + intros _. exists []. split; reflexivity.
      + intros l E. injection E as <-. split; [constructor | reflexivity].
    - split.
      + intros Hall. inversion Hall as [| ? ? Hi Hrest]; subst.
        destruct (runForIdx_served ch rest s0 k t sigma r i Hi) as [v Hv].
        destruct (IHok Hrest) as (l & Hl & Hlen).
        exists (v :: l). cbn [py_map]. rewrite Hv. cbn [rbind]. rewrite Hl.
        split; [reflexivity | cbn [List.length]; rewrite Hlen; reflexivity].
      + intros l. cbn [py_map].
        destruct (runForIdx (String ch rest) s0 k t sigma r i) as [v | e] eqn:Hv;
          cbn [rbind]; [| discriminate].
        destruct (py_map (runForIdx (String ch rest) s0 k t sigma r) which)
          as [l' | e] eqn:Hl; cbn [rbind]; [| discriminate].
        intros E. injection E as <-.
        destruct (IHonly l' eq_refl) as [Hall Hlen].
        split; [| cbn [List.length]; rewrite Hlen; reflexivity].
        constructor; [| exact Hall].
        destruct (runForIdx_cases ch rest s0 k t sigma r i)
          as [Hs | [[_ H] | [[_ H] | [_ H]]]];
          [exact Hs | | |]; rewrite H in Hv; discriminate Hv. }
  destruct Hboth as [Hok Honly].
  split; [exact Hok |]. split; [exact Honly |].
  intros Hn.
  destruct (deriveGreeks2 (String ch rest) s0 k t sigma r which) as [l | e] eqn:E.
  - exfalso. apply Hn. apply (Honly l eq_refl).
  - exists e. reflexivity.
Qed.

(** ** Solvers *)

Section SolverPaths.

Context `{RF : RootFinder} `{VL : Vollib}.

(** X8. With a non-zero guess [ivFromOptionAuto] relies on [newton] alone:
    the root it returns is stored in [iv] and returned, and an exception it
    raises is propagated with the store left as it was. *)
Theorem ivFromOptionAuto_with_guess (h : heap) (p : loc) (guess : R) :
  guess <> 0 ->
  (forall s, newton (findIV (h p)) guess = Ok s ->
     ivFromOptionAuto p guess h = (upd h p (with_iv (h p) (Some s)), Ok (Some s))) /\
  (forall e, newton (findIV (h p)) guess = Raise e ->
     ivFromOptionAuto p guess h = (h, Raise e)).
Proof.
  intros Hg. unfold ivFromOptionAuto. rewrite (truthy_nonzero guess Hg).
  unfold bind, get, lift, set_iv, ret. split.
  - intros s Hs. rewrite Hs, upd_eq. reflexivity.
  - intros e He. rewrite He. reflexivity.
Qed.

(** X9. [ivFromOptionFast] never raises, whatever the option and the
    collaborators: it stores a float in [iv], changes nothing else, and
    returns that float. The float is the analytical answer when the library
    gives one; with an empty kind, whose [kind[0]] raises inside the [try],
    it is the result of the bracketed search. *)
Theorem ivFromOptionFast_never_raises (h : heap) (p : loc) :
  exists v,
    ivFromOptionFast p h = (upd h p (with_iv (h p) (Some v)), Ok (Some v)) /\
    (forall ch rest s,
        kind (h p) = String ch rest ->
        implied_volatility (npv (h p)) (underlying (h p)) (strike (h p))
          (expiry (h p)) BASE_RATE (lower ch) = Ok s ->
        v = s) /\
    (kind (h p) = EmptyString -> v = bracketed_iv (h p)).
Proof.
  exists (fast_iv (h p)). split; [apply ivFromOptionFast_stores |].
  unfold fast_iv, fast_call. split.
  - intros ch rest s Hk Hs. rewrite Hk. cbn [str_head rbind]. rewrite Hs. reflexivity.
  - intros Hk. rewrite Hk. reflexivity.
Qed.

End SolverPaths.

(** ** A price that is not zero *)

Lemma ln_nonneg (x : R) : 1 <= x -> 0 <= ln x.
Proof.
  intros Hx. destruct Hx as [Hlt | <-].
  - left. rewrite <- ln_1. apply ln_increasing; lra.
  - rewrite ln_1. lra.
Qed.

(** A call at or in the money has a positive value. *)
Lemma call_positive (S K T sigma r : R) :
  0 < K -> K <= S -> 0 < T -> 0 < sigma -> 0 <= r ->
  0 < Formula.call S K T sigma r.
Proof.
  intros HK HKS HT HV Hr.
  assert (HsT : 0 < sqrt T) by (apply sqrt_lt_R0; assumption).
  assert (Hw : 0 < sigma * sqrt T) by (apply Rmult_lt_0_compat; assumption).
  assert (Hln : 0 <= ln (S / K)).
  { apply ln_nonneg. apply (Rmult_le_reg_r K); [assumption |].
    unfold Rdiv. rewrite Rmult_assoc, Rinv_l by lra. lra. }
  assert (Hd1 : 0 < Formula.d1 S K T sigma r).
  { unfold Formula.d1. apply Rdiv_lt_0_compat; [| assumption].
    assert (0 < sigma ^ 2) by (apply pow_lt; assumption). nra. }
  pose proof (Phi_above_half _ Hd1) as HA.
  assert (HB : Phi (Formula.d2 S K T sigma r) < Phi (Formula.d1 S K T sigma r)).
  { apply Phi_increasing. unfold Formula.d2. lra. }
  assert (HE : 0 < exp (- (r * T)) <= 1).
  { split; [apply exp_pos |].
    rewrite <- exp_0. destruct (Req_dec (r * T) 0) as [-> | Hn].
    - rewrite Ropp_0. lra.
    - left. apply exp_increasing. nra. }
  unfold Formula.call.
  set (A := Phi (Formula.d1 S K T sigma r)) in *.
  set (B := Phi (Formula.d2 S K T sigma r)) in *.
  set (E := exp (- (r * T))) in *.
  assert (HKE : 0 < K * E <= K) by nra.
  assert (HSA : 0 < S * A) by nra.
  destruct (Rle_or_lt B 0) as [HB0 | HB0].
  - assert (K * E * B <= 0) by nra. lra.
  - assert (K * E * B <= K * B) by nra.
    assert (K * B <= S * B) by nra.
    assert (S * B < S * A) by nra. lra.
Qed.

(** ** A price that no volatility gives *)




(** ** Entry points *)

Section EntryPointResults.

Context `{RF : RootFinder} `{VL : Vollib}.

(** The store in which [iv] has been solved, when it had to be. *)
Lemma optionGreeksAuto_eval (p : loc) (c : bool) (h : heap) :
  optionGreeksAuto p c h =
  if truthy_opt (iv (h p)) || truthy_opt (npv (h p)) then
    let o := if truthy_opt (iv (h p)) then h p
             else with_iv (h p) (Some (bracketed_iv (h p))) in
    match auto_outcome o c with
    | Ok o' => (upd h p o', Ok p)
    | Raise e => (upd h p o, Raise e)
    end
  else (h, Raise AssertionError).
Proof.
  rewrite optionGreeksAuto_unfold.
  destruct (truthy_opt (iv (h p))); cbn [orb].
  - rewrite auto_body_outcome.
    destruct (auto_outcome (h p) c); [reflexivity |].
    rewrite upd_self. reflexivity.
  - destruct (truthy_opt (npv (h p))); [| reflexivity].
    rewrite auto_body_outcome, upd_eq.
    destruct (auto_outcome _ c); [| reflexivity].
    rewrite upd_upd. reflexivity.
Qed.

Lemma optionGreeksFast_eval (p : loc) (c : bool) (h : heap) :
  optionGreeksFast p c h =
  if truthy_opt (iv (h p)) || truthy_opt (npv (h p)) then
    let o := if truthy_opt (iv (h p)) then h p
             else with_iv (h p) (Some (fast_iv (h p))) in
    match fast_outcome (revalued o c) with
    | Ok g => (upd h p (with_greeks (revalued o c) (Some g)), Ok p)
    | Raise e => (upd h p (revalued o c), Raise e)
    end
  else (h, Raise AssertionError).
Proof.
  rewrite optionGreeksFast_unfold. cbv zeta.
  destruct (truthy_opt (iv (h p))); cbn [orb].
  - apply fast_rest_eval.
  - destruct (truthy_opt (npv (h p))); [| reflexivity].
    rewrite fast_rest_eval, upd_eq.
    destruct (fast_outcome _); rewrite upd_upd; reflexivity.
Qed.

(** X10. With a non-empty kind, positive underlying, strike and expiry,
    and a positive [iv] supplied, [optionGreeksAuto] consults no solver,
    returns the reference it was given and leaves the record with [iv]
    unchanged, [npv] set to the valuation (when [calculateNPV]) and
    [greeks] holding the four closed-form Greeks at the rate [BASE_RATE]. *)
Theorem optionGreeksAuto_with_iv
    (h : heap) (p : loc) (calculateNPV : bool)
    (ch : ascii) (rest : string) (sigma : R) :
  kind (h p) = String ch rest -> iv (h p) = Some sigma ->
  0 < underlying (h p) -> 0 < strike (h p) -> 0 < expiry (h p) -> 0 < sigma ->
  let o := h p in
  let b := Ascii.eqb (lower ch) "c" in
  let S := underlying o in
  let K := strike o in
  let T := expiry o in
  let a := Formula.d1 S K T sigma BASE_RATE in
  let carry := BASE_RATE * K * exp (- (BASE_RATE * T)) in
  optionGreeksAuto p calculateNPV h =
  (upd h p
     (mkOption (kind o) S K T (Some sigma)
        (if calculateNPV then Some (Formula.npv b S K T sigma BASE_RATE) else npv o)
        (Some (mkGreeks
                 (PyFloat
                    (- (S * Normal.pdf a * sigma / (2 * sqrt T)
                        + (if b then carry * Phi (Formula.d2 S K T sigma BASE_RATE)
                           else - (carry * Phi (- Formula.d2 S K T sigma BASE_RATE))))
                     / 365.25))
                 (PyFloat (if b then Phi a else Phi a - 1))
                 (PyFloat (Normal.pdf a / (S * sigma * sqrt T)))
                 (PyFloat (S * Normal.pdf a * sqrt T / 100))))),
   Ok p).
Proof.
  intros Hk Hiv HS HK HT HV. cbv zeta.
  rewrite optionGreeksAuto_eval, Hiv. cbn [truthy_opt].
  rewrite (truthy_nonzero sigma) by lra. cbn [orb]. cbv zeta.
  unfold auto_outcome. rewrite Hiv, Hk. cbn [float_ str_head rbind].
  unfold auto_record, auto_greeks. rewrite Hk, Hiv. cbn [is_call].
  rewrite bs_delta_closed, bs_vega_closed, bs_dT_closed, bs_gamma_closed by assumption.
  reflexivity.
Qed.

(** X11. Running [optionGreeksAuto] again on the store it left, with a
    non-zero [iv] in it, changes nothing: same store, same result. *)
Theorem optionGreeksAuto_idempotent (h : heap) (p : loc) (calculateNPV : bool) :
  truthy_opt (iv (fst (optionGreeksAuto p calculateNPV h) p)) = true ->
  optionGreeksAuto p calculateNPV (fst (optionGreeksAuto p calculateNPV h)) =
  optionGreeksAuto p calculateNPV h.
Proof.
  rewrite (optionGreeksAuto_eval p calculateNPV h).
  destruct (truthy_opt (iv (h p)) || truthy_opt (npv (h p))) eqn:Hin.
  - cbv zeta.
    set (o := if truthy_opt (iv (h p)) then h p
              else with_iv (h p) (Some (bracketed_iv (h p)))).
    destruct (auto_outcome o calculateNPV) as [o' | e] eqn:Hout; cbn [fst].
    + rewrite upd_eq. intros Ht.
      rewrite optionGreeksAuto_eval, upd_eq, Ht. cbn [orb]. cbv zeta.
      rewrite (auto_outcome_idem o o' calculateNPV Hout), upd_upd. reflexivity.
    + rewrite upd_eq. intros Ht.
      rewrite optionGreeksAuto_eval, upd_eq, Ht. cbn [orb]. cbv zeta.
      rewrite Hout, upd_upd. reflexivity.
  - cbn [fst]. apply orb_false_elim in Hin as [Hi _]. rewrite Hi. discriminate.
Qed.

(** X12. Running [optionGreeksFast] again on the store it left, with a
    non-zero [iv] in it, changes nothing: same store, same result. *)
Theorem optionGreeksFast_idempotent (h : heap) (p : loc) (calculateNPV : bool) :
  truthy_opt (iv (fst (optionGreeksFast p calculateNPV h) p)) = true ->
  optionGreeksFast p calculateNPV (fst (optionGreeksFast p calculateNPV h)) =
  optionGreeksFast p calculateNPV h.
Proof.
  rewrite (optionGreeksFast_eval p calculateNPV h).
  destruct (truthy_opt (iv (h p)) || truthy_opt (npv (h p))) eqn:Hin.
  - cbv zeta.
    set (o := if truthy_opt (iv (h p)) then h p
              else with_iv (h p) (Some (fast_iv (h p)))).
    destruct (fast_outcome (revalued o calculateNPV)) as [g | e] eqn:Hout; cbn [fst].
    + rewrite upd_eq. intros Ht.
      rewrite optionGreeksFast_eval, upd_eq, Ht. cbn [orb]. cbv zeta.
      rewrite revalued_with_greeks, revalued_idem.
      rewrite fast_outcome_with_greeks, Hout, upd_upd. reflexivity.
    + rewrite upd_eq. intros Ht.
      rewrite optionGreeksFast_eval, upd_eq, Ht. cbn [orb]. cbv zeta.
      rewrite revalued_idem, Hout, upd_upd. reflexivity.
  - cbn [fst]. apply orb_false_elim in Hin as [Hi _]. rewrite Hi. discriminate.
Qed.

End EntryPointResults.

Lemma auto_outcome_fields (o o' : Option_) (c : bool) :
  auto_outcome o c = Ok o' ->
  iv o' = iv o /\
  (c = false -> npv o' = npv o) /\
  exists th de ga ve,
    greeks o' = Some (mkGreeks (PyFloat th) (PyFloat de) (PyFloat ga) (PyFloat ve)).
Proof.
  unfold auto_outcome.
  destruct (float_ (iv o)) as [sigma |]; cbn [rbind]; [| discriminate].
  destruct (str_head (kind o)); cbn [rbind]; [| discriminate].
  intros E. injection E as <-. split; [reflexivity |]. split.
  - intros ->. reflexivity.
  - unfold auto_record, auto_greeks. cbn [greeks]. do 4 eexists. reflexivity.
Qed.

Lemma auto_outcome_empty_kind (o : Option_) (c : bool) (sigma : R) :
  kind o = EmptyString -> iv o = Some sigma -> auto_outcome o c = Raise IndexError.
Proof. intros Hk Hiv. unfold auto_outcome. rewrite Hk, Hiv. reflexivity. Qed.

Lemma revalued_fields (o : Option_) (c : bool) :
  kind (revalued o c) = kind o /\ iv (revalued o c) = iv o /\
  greeks (revalued o c) = greeks o /\ (c = false -> revalued o c = o).
Proof.
  unfold revalued. destruct c.
  - destruct (rbind _ _); repeat split; intros; discriminate.
  - repeat split.
Qed.

Lemma revalued_empty_kind (o : Option_) (c : bool) :
  kind o = EmptyString -> revalued o c = o.
Proof.
  intros Hk. unfold revalued. destruct c; [| reflexivity].
  destruct (float_ (iv o)); cbn [rbind]; [| reflexivity].
  rewrite Hk. reflexivity.
Qed.

Lemma truthy_opt_some (x : option R) :
  truthy_opt x = true -> exists v, x = Some v.
Proof. destruct x as [v |]; [eexists; reflexivity | discriminate]. Qed.

Section MoreEntryPoints.

Context `{RF : RootFinder} `{VL : Vollib}.

Lemma vollib_greeks_floats (flag : ascii) (o : Option_) (g : Greeks) :
  vollib_greeks flag o = Ok g ->
  exists th de ga ve, g = mkGreeks (PyFloat th) (PyFloat de) (PyFloat ga) (PyFloat ve).
Proof.
  unfold vollib_greeks.
  destruct (bs_ga_theta _ _ _ _ _ _) as [th |]; cbn [rbind]; [| discriminate].
  destruct (bs_ga_delta _ _ _ _ _ _) as [de |]; cbn [rbind]; [| discriminate].
  destruct (bs_ga_vega _ _ _ _ _ _) as [ve |]; cbn [rbind]; [| discriminate].
  destruct (bs_ga_gamma _ _ _ _ _ _) as [ga |]; cbn [rbind]; [| discriminate].
  intros E. injection E as <-. exists th, de, ga, ve. reflexivity.
Qed.

Lemma fast_outcome_floats (o : Option_) (g : Greeks) :
  fast_outcome o = Ok g ->
  exists th de ga ve, g = mkGreeks (PyFloat th) (PyFloat de) (PyFloat ga) (PyFloat ve).
Proof.
  unfold fast_outcome.
  destruct (str_head (kind o)) as [c |]; cbn [rbind]; [| discriminate].
  destruct (Ascii.eqb (lower c) "c" || Ascii.eqb (lower c) "p")%bool;
    cbn [rbind]; [| discriminate].
  apply vollib_greeks_floats.
Qed.

Lemma fast_outcome_empty_kind (o : Option_) :
  kind o = EmptyString -> fast_outcome o = Raise IndexError.
Proof. intros Hk. unfold fast_outcome. rewrite Hk. reflexivity. Qed.

(** The record on which the Greeks are computed: the given one, or the
    one with the solved [iv]. *)
Lemma solved_record_fields (o : Option_) (v : R) :
  let o1 := if truthy_opt (iv o) then o else with_iv o (Some v) in
  kind o1 = kind o /\ npv o1 = npv o /\ greeks o1 = greeks o /\
  exists sigma, iv o1 = Some sigma.
Proof.
  destruct (truthy_opt (iv o)) eqn:Ht; cbv zeta.
  - repeat split. apply truthy_opt_some, Ht.
  - repeat split. exists v. reflexivity.
Qed.

Lemma optionGreeksAuto_keeps_true_iv (p : loc) (c : bool) (h : heap) :
  truthy_opt (iv (h p)) = true ->
  iv (fst (optionGreeksAuto p c h) p) = iv (h p).
Proof.
  intros Ht. rewrite optionGreeksAuto_eval, Ht. cbn [orb]. cbv zeta.
  destruct (auto_outcome (h p) c) as [o' | e] eqn:Hout; cbn [fst]; rewrite upd_eq.
  - apply (auto_outcome_fields _ _ _ Hout).
  - reflexivity.
Qed.

Lemma optionGreeksFast_keeps_true_iv (p : loc) (c : bool) (h : heap) :
  truthy_opt (iv (h p)) = true ->
  iv (fst (optionGreeksFast p c h) p) = iv (h p).
Proof.
  intros Ht. rewrite optionGreeksFast_eval, Ht. cbn [orb]. cbv zeta.
  destruct (fast_outcome (revalued (h p) c)); cbn [fst]; rewrite upd_eq;
    cbn [iv with_greeks]; apply revalued_fields.
Qed.

(** X13. With [calculateNPV = False] neither entry point writes [npv],
    whether it returns or raises. *)
Theorem calculateNPV_false_keeps_npv (h : heap) (p : loc) :
  npv (fst (optionGreeksAuto p false h) p) = npv (h p) /\
  npv (fst (optionGreeksFast p false h) p) = npv (h p).
Proof.
  rewrite optionGreeksAuto_eval, optionGreeksFast_eval.
  destruct (truthy_opt (iv (h p)) || truthy_opt (npv (h p))); [| split; reflexivity].
  cbv zeta. split.
  - destruct (solved_record_fields (h p) (bracketed_iv (h p))) as (_ & Hn & _).
    destruct (auto_outcome _ false) as [o' | e] eqn:Hout; cbn [fst]; rewrite upd_eq.
    + destruct (auto_outcome_fields _ _ _ Hout) as (_ & Hnpv & _).
      rewrite (Hnpv eq_refl). exact Hn.
    + exact Hn.
  - destruct (solved_record_fields (h p) (fast_iv (h p))) as (_ & Hn & _).
    destruct (fast_outcome _); cbn [fst]; rewrite upd_eq; exact Hn.
Qed.

(** X14. On an option whose kind is the empty string neither entry point
    returns: each raises the assertion error (no inputs) or [IndexError]
    ([kind[0]]), and leaves [npv] and [greeks] as they were. *)
Theorem empty_kind_never_succeeds (h : heap) (p : loc) (calculateNPV : bool) :
  kind (h p) = EmptyString ->
  (exists h' e,
      optionGreeksAuto p calculateNPV h = (h', Raise e) /\
      (e = AssertionError \/ e = IndexError) /\
      npv (h' p) = npv (h p) /\ greeks (h' p) = greeks (h p)) /\
  (exists h' e,
      optionGreeksFast p calculateNPV h = (h', Raise e) /\
      (e = AssertionError \/ e = IndexError) /\
      npv (h' p) = npv (h p) /\ greeks (h' p) = greeks (h p)).
Proof.
  intros Hk. rewrite optionGreeksAuto_eval, optionGreeksFast_eval.
  destruct (truthy_opt (iv (h p)) || truthy_opt (npv (h p))).
  2: { split; exists h, AssertionError; repeat split; left; reflexivity. }
  cbv zeta. split.
  - destruct (solved_record_fields (h p) (bracketed_iv (h p)))
      as (Hk1 & Hn & Hg & sigma & Hiv).
    rewrite (auto_outcome_empty_kind _ calculateNPV sigma) by congruence.
    do 2 eexists. split; [reflexivity |]. rewrite upd_eq.
    split; [right; reflexivity |]. split; assumption.
  - destruct (solved_record_fields (h p) (fast_iv (h p)))
      as (Hk1 & Hn & Hg & sigma & Hiv).
    rewrite revalued_empty_kind, fast_outcome_empty_kind by congruence.
    do 2 eexists. split; [reflexivity |]. rewrite upd_eq.
    split; [right; reflexivity |]. split; assumption.
Qed.

(** X15. With a kind starting with c, C, p or P, a positive underlying,
    strike and expiry and a positive [iv] supplied, when the four library
    calls return, [optionGreeksFast] returns the reference it was given and
    leaves [greeks] holding the four library values (asked with the
    lower-case flag and [BASE_RATE]), [iv] unchanged and [npv] set to the
    valuation when [calculateNPV]. *)
Theorem optionGreeksFast_with_iv
    (h : heap) (p : loc) (calculateNPV : bool)
    (ch : ascii) (rest : string) (sigma th de ve ga : R) :
  kind (h p) = String ch rest ->
  lower ch = "c"%char \/ lower ch = "p"%char ->
  iv (h p) = Some sigma ->
  0 < underlying (h p) -> 0 < strike (h p) -> 0 < expiry (h p) -> 0 < sigma ->
  let o := h p in
  bs_ga_theta (lower ch) (underlying o) (strike o) (expiry o) BASE_RATE (Some sigma)
  = Ok th ->
  bs_ga_delta (lower ch) (underlying o) (strike o) (expiry o) BASE_RATE (Some sigma)
  = Ok de ->
  bs_ga_vega (lower ch) (underlying o) (strike o) (expiry o) BASE_RATE (Some sigma)
  = Ok ve ->
  bs_ga_gamma (lower ch) (underlying o) (strike o) (expiry o) BASE_RATE (Some sigma)
  = Ok ga ->
  optionGreeksFast p calculateNPV h =
  (upd h p
     (mkOption (kind o) (underlying o) (strike o) (expiry o) (Some sigma)
        (if calculateNPV
         then Some (Formula.npv (Ascii.eqb (lower ch) "c") (underlying o) (strike o)
                      (expiry o) sigma BASE_RATE)
         else npv o)
        (Some (mkGreeks (PyFloat th) (PyFloat de) (PyFloat ga) (PyFloat ve)))),
   Ok p).
Proof.
  intros Hk Hflag Hiv _ _ _ Hs. cbv zeta. intros Hth Hde Hve Hga.
  rewrite optionGreeksFast_eval, Hiv. cbn [truthy_opt].
  rewrite (truthy_nonzero sigma) by lra. cbn [orb]. cbv zeta.
  rewrite fast_outcome_revalued.
  assert (Hout : fast_outcome (h p)
                 = Ok (mkGreeks (PyFloat th) (PyFloat de) (PyFloat ga) (PyFloat ve))).
  { unfold fast_outcome, vollib_greeks. rewrite Hk. cbn [str_head rbind].
    replace (Ascii.eqb (lower ch) "c" || Ascii.eqb (lower ch) "p")%bool with true
      by (destruct Hflag as [-> | ->]; reflexivity).
    cbn [rbind]. rewrite Hiv, Hth, Hde, Hve, Hga. reflexivity. }
  rewrite Hout. destruct calculateNPV.
  - rewrite (revalued_value (h p) ch rest sigma Hk Hiv).
    unfold with_greeks, with_npv. cbn [kind underlying strike expiry iv npv].
    rewrite Hiv. reflexivity.
  - unfold revalued, with_greeks. rewrite Hiv. reflexivity.
Qed.

(** X16. With a positive underlying, strike and expiry and a positive [iv]
    supplied, when one of the four library calls raises, [optionGreeksFast]
    propagates that exception and stores no Greeks, but [npv] has already
    been overwritten with the valuation when [calculateNPV]. *)
Theorem optionGreeksFast_library_failure
    (h : heap) (p : loc) (calculateNPV : bool)
    (ch : ascii) (rest : string) (sigma : R) (e : exn) :
  kind (h p) = String ch rest ->
  lower ch = "c"%char \/ lower ch = "p"%char ->
  iv (h p) = Some sigma ->
  0 < underlying (h p) -> 0 < strike (h p) -> 0 < expiry (h p) -> 0 < sigma ->
  vollib_greeks (lower ch) (h p) = Raise e ->
  optionGreeksFast p calculateNPV h =
  (upd h p
     (mkOption (kind (h p)) (underlying (h p)) (strike (h p)) (expiry (h p))
        (Some sigma)
        (if calculateNPV
         then Some (Formula.npv (Ascii.eqb (lower ch) "c") (underlying (h p))
                      (strike (h p)) (expiry (h p)) sigma BASE_RATE)
         else npv (h p))
        (greeks (h p))),
   Raise e).
Proof.
  intros Hk Hflag Hiv _ _ _ Hs Hfail.
  rewrite optionGreeksFast_eval, Hiv. cbn [truthy_opt].
  rewrite (truthy_nonzero sigma) by lra. cbn [orb]. cbv zeta.
  rewrite fast_outcome_revalued.
  assert (Hout : fast_outcome (h p) = Raise e).
  { unfold fast_outcome. rewrite Hk. cbn [str_head rbind].
    replace (Ascii.eqb (lower ch) "c" || Ascii.eqb (lower ch) "p")%bool with true
      by (destruct Hflag as [-> | ->]; reflexivity).
    cbn [rbind]. exact Hfail. }
  rewrite Hout. destruct calculateNPV.
  - rewrite (revalued_value (h p) ch rest sigma Hk Hiv).
    unfold with_npv. rewrite Hiv. reflexivity.
  - unfold revalued. f_equal. f_equal.
    destruct (h p) as [k u s x i n g]. cbn in *. rewrite Hiv. reflexivity.
Qed.

(** X17. Whenever an entry point returns, the [greeks] it stored hold four
    plain floats: no tensor and no [None] is left in a field. *)
Theorem stored_greeks_are_floats
    (h h' : heap) (p q : loc) (calculateNPV : bool) :
  optionGreeksAuto p calculateNPV h = (h', Ok q) \/
  optionGreeksFast p calculateNPV h = (h', Ok q) ->
  exists th de ga ve,
    greeks (h' p) = Some (mkGreeks (PyFloat th) (PyFloat de) (PyFloat ga) (PyFloat ve)).
Proof.
  rewrite optionGreeksAuto_eval, optionGreeksFast_eval.
  destruct (truthy_opt (iv (h p)) || truthy_opt (npv (h p)));
    [| intros [E | E]; discriminate E].
  cbv zeta. intros [E | E].
  - destruct (auto_outcome _ calculateNPV) as [o' | e] eqn:Hout; [| discriminate E].
    injection E as <- _. rewrite upd_eq.
    apply (auto_outcome_fields _ _ _ Hout).
  - destruct (fast_outcome _) as [g | e] eqn:Hout; [| discriminate E].
    injection E as <- _. rewrite upd_eq. cbn [greeks with_greeks].
    destruct (fast_outcome_floats _ _ Hout) as (th & de & ga & ve & ->).
    exists th, de, ga, ve. reflexivity.
Qed.

(** X18. Price to volatility and back: when [iv] is absent and the
    bracketed search returns an exact root of [findIV],
    [optionGreeksAuto] with [calculateNPV] stores that root in [iv] and
    leaves in [npv] the price it started from. *)
Theorem price_round_trip
    (h : heap) (p : loc) (ch : ascii) (rest : string) (q s : R) :
  kind (h p) = String ch rest ->
  iv (h p) = None -> npv (h p) = Some q -> q <> 0 ->
  brentq (findIV (h p)) 0 5000 = Ok s ->
  findIV (h p) s = Ok 0 ->
  exists h',
    optionGreeksAuto p true h = (h', Ok p) /\
    iv (h' p) = Some s /\ npv (h' p) = Some q.
Proof.
  intros Hk Hiv Hq Hq0 Hs Hroot.
  rewrite optionGreeksAuto_eval, Hiv, Hq. cbn [truthy_opt].
  rewrite (truthy_nonzero q Hq0). cbn [orb]. cbv zeta.
  unfold bracketed_iv. rewrite Hs.
  unfold auto_outcome. cbn [iv kind with_iv float_ rbind]. rewrite Hk.
  cbn [str_head rbind]. eexists. split; [reflexivity |].
  rewrite upd_eq. unfold auto_record. cbn [iv npv kind underlying strike expiry with_iv].
  split; [reflexivity |]. rewrite Hk. cbn [is_call].
  unfold findIV, optionNPV in Hroot. rewrite Hk, blackScholes_graph in Hroot.
  cbn [rbind] in Hroot. cbv zeta in Hroot. rewrite bs_graph_item, Hq in Hroot.
  cbn [item] in Hroot. injection Hroot as Hroot. f_equal. lra.
Qed.

End MoreEntryPoints.

(** ** Concrete runs *)

Lemma fifth_nonzero : 1 / 5 <> 0.
Proof. lra. Qed.

Lemma fifth_positive : 0 < 1 / 5.
Proof. lra. Qed.

Lemma sample_positive (kind : string) (iv npv : option R) (p : loc) :
  0 < underlying (sample kind iv npv p) /\ 0 < strike (sample kind iv npv p) /\
  0 < expiry (sample kind iv npv p).
Proof. unfold sample. cbn [underlying strike expiry]. lra. Qed.

Lemma deriveGreeks2_serves_0_3_4_witness :
  exists l,
    deriveGreeks2 "put" 100 95 (1 / 2) (3 / 10) BASE_RATE [0%Z; 3%Z; 4%Z] = Ok l /\
    List.length l = 3%nat.
Proof.
  assert (H100 : 0 < 100) by lra.
  assert (H95 : 0 < 95) by lra.
  assert (Ht : 0 < 1 / 2) by lra.
  assert (Hv : 0 < 3 / 10) by lra.
  apply (proj1 (deriveGreeks2_serves_0_3_4 "p" "ut" 100 95 (1 / 2) (3 / 10) BASE_RATE
                  [0%Z; 3%Z; 4%Z] H100 H95 Ht Hv)).
  repeat constructor; unfold served; tauto.
Defined.

Lemma ivFromOptionAuto_with_guess_witness :
  @ivFromOptionAuto (fixed_root (1 / 4)) 0%nat (1 / 5) (sample "call" None (Some 5)) =
  (upd (sample "call" None (Some 5)) 0%nat
     (with_iv (sample "call" None (Some 5) 0%nat) (Some (1 / 4))),
   Ok (Some (1 / 4))).
Proof.
  apply (proj1 (@ivFromOptionAuto_with_guess (fixed_root (1 / 4))
                  (sample "call" None (Some 5)) 0%nat (1 / 5) fifth_nonzero)).
  reflexivity.
Defined.

Lemma optionGreeksAuto_with_iv_witness :
  exists h',
    @optionGreeksAuto no_root 0%nat true (sample "call" (Some (1 / 5)) None) =
    (h', Ok 0%nat).
Proof.
  eexists.
  apply (@optionGreeksAuto_with_iv no_root (sample "call" (Some (1 / 5)) None)
           0%nat true "c" "all" (1 / 5) eq_refl eq_refl);
    unfold sample; cbn [underlying strike expiry]; lra.
Defined.

Lemma optionGreeksAuto_idempotent_witness :
  let h := sample "call" (Some (1 / 5)) None in
  @optionGreeksAuto no_root 0%nat true (fst (@optionGreeksAuto no_root 0%nat true h)) =
  @optionGreeksAuto no_root 0%nat true h.
Proof.
  intros h.
  apply (@optionGreeksAuto_idempotent no_root h 0%nat true).
  rewrite optionGreeksAuto_keeps_true_iv; apply (truthy_nonzero _ fifth_nonzero).
Defined.

Lemma optionGreeksFast_idempotent_witness :
  let h := sample "call" (Some (1 / 5)) None in
  @optionGreeksFast no_root below_intrinsic 0%nat true
    (fst (@optionGreeksFast no_root below_intrinsic 0%nat true h)) =
  @optionGreeksFast no_root below_intrinsic 0%nat true h.
Proof.
  intros h.
  apply (@optionGreeksFast_idempotent no_root below_intrinsic h 0%nat true).
  rewrite optionGreeksFast_keeps_true_iv; apply (truthy_nonzero _ fifth_nonzero).
Defined.

Lemma empty_kind_never_succeeds_witness :
  exists h' e,
    @optionGreeksFast no_root below_intrinsic 0%nat true
      (sample "" (Some (1 / 5)) None) = (h', Raise e) /\
    (e = AssertionError \/ e = IndexError).
Proof.
  destruct (@empty_kind_never_succeeds no_root below_intrinsic
              (sample "" (Some (1 / 5)) None) 0%nat true eq_refl)
    as [_ (h' & e & Hrun & He & _)].
  exists h', e. split; [exact Hrun | exact He].
Defined.

Lemma optionGreeksFast_with_iv_witness :
  exists h',
    @optionGreeksFast no_root below_intrinsic 0%nat false
      (sample "Put" (Some (1 / 5)) None) = (h', Ok 0%nat).
Proof.
  eexists.
  apply (@optionGreeksFast_with_iv no_root below_intrinsic
           (sample "Put" (Some (1 / 5)) None) 0%nat false "P" "ut" (1 / 5) 0 0 0 0
           eq_refl (or_intror eq_refl) eq_refl
           (proj1 (sample_positive _ _ _ _))
           (proj1 (proj2 (sample_positive _ _ _ _)))
           (proj2 (proj2 (sample_positive _ _ _ _))) fifth_positive
           eq_refl eq_refl eq_refl eq_refl).
Defined.

Lemma optionGreeksFast_library_failure_witness :
  exists h',
    @optionGreeksFast no_root no_greeks 0%nat false
      (sample "call" (Some (1 / 5)) None) = (h', Raise (LibraryError 1)).
Proof.
  eexists.
  apply (@optionGreeksFast_library_failure no_root no_greeks
           (sample "call" (Some (1 / 5)) None) 0%nat false "c" "all" (1 / 5)
           (LibraryError 1) eq_refl (or_introl eq_refl) eq_refl
           (proj1 (sample_positive _ _ _ _))
           (proj1 (proj2 (sample_positive _ _ _ _)))
           (proj2 (proj2 (sample_positive _ _ _ _))) fifth_positive eq_refl).
Defined.

(** A run that succeeds, on which to read the stored Greeks. *)
Lemma sample_fast_run :
  @optionGreeksFast no_root below_intrinsic 0%nat false
    (sample "call" (Some (1 / 5)) None) =
  (upd (sample "call" (Some (1 / 5)) None) 0%nat
     (with_greeks (sample "call" (Some (1 / 5)) None 0%nat)
        (Some (mkGreeks (PyFloat 0) (PyFloat 0) (PyFloat 0) (PyFloat 0)))),
   Ok 0%nat).
Proof.
  assert (Hiv : iv (sample "call" (Some (1 / 5)) None 0%nat) = Some (1 / 5))
    by reflexivity.
  rewrite optionGreeksFast_eval, Hiv. cbn [truthy_opt].
  rewrite (truthy_nonzero _ fifth_nonzero). reflexivity.
Qed.

Lemma stored_greeks_are_floats_witness :
  exists th de ga ve,
    greeks (fst (@optionGreeksFast no_root below_intrinsic 0%nat false
                   (sample "call" (Some (1 / 5)) None)) 0%nat) =
    Some (mkGreeks (PyFloat th) (PyFloat de) (PyFloat ga) (PyFloat ve)).
Proof.
  rewrite sample_fast_run. cbn [fst].
  apply (@stored_greeks_are_floats no_root below_intrinsic
           (sample "call" (Some (1 / 5)) None) _ 0%nat 0%nat false).
  right. exact sample_fast_run.
Defined.

Lemma atm_call_nonzero : Formula.call 100 100 1 (1 / 5) BASE_RATE <> 0.
Proof.
  assert (0 < Formula.call 100 100 1 (1 / 5) BASE_RATE).
  { apply call_positive; unfold BASE_RATE; lra. }
  lra.
Qed.

Lemma atm_call_root :
  findIV (sample "call" None (Some (Formula.call 100 100 1 (1 / 5) BASE_RATE)) 0%nat)
    (1 / 5) = Ok 0.
Proof.
  unfold findIV, optionNPV, sample. cbn [kind underlying strike expiry npv].
  rewrite blackScholes_graph. cbn [rbind]. rewrite bs_graph_item. cbn [item]. f_equal.
  change (Ascii.eqb (lower "c") "c") with true. unfold Formula.npv. ring.
Qed.

Lemma price_round_trip_witness :
  let q := Formula.call 100 100 1 (1 / 5) BASE_RATE in
  exists h',
    @optionGreeksAuto (fixed_root (1 / 5)) 0%nat true (sample "call" None (Some q)) =
    (h', Ok 0%nat) /\
    iv (h' 0%nat) = Some (1 / 5) /\ npv (h' 0%nat) = Some q.
Proof.
  intros q.
  apply (@price_round_trip (fixed_root (1 / 5)) (sample "call" None (Some q)) 0%nat
           "c" "all" q (1 / 5) eq_refl eq_refl eq_refl atm_call_nonzero eq_refl
           atm_call_root).
Defined.

(** ** Round trips *)

Section RoundTrips.

Context `{RF : RootFinder} `{VL : Vollib}.

(** X19. The same round trip through the fast path: when [iv] is absent
    and the analytical inversion returns an exact root of [findIV],
    [optionGreeksFast] with [calculateNPV] stores that root in [iv] and
    leaves in [npv] the price it started from, whether the Greeks then
    succeed or not. *)
Theorem price_round_trip_fast
    (h : heap) (p : loc) (ch : ascii) (rest : string) (q s : R) :
  kind (h p) = String ch rest ->
  iv (h p) = None -> npv (h p) = Some q -> q <> 0 ->
  implied_volatility (Some q) (underlying (h p)) (strike (h p)) (expiry (h p))
    BASE_RATE (lower ch) = Ok s ->
  findIV (h p) s = Ok 0 ->
  exists h' r,
    optionGreeksFast p true h = (h', r) /\
    iv (h' p) = Some s /\ npv (h' p) = Some q.
Proof.
  intros Hk Hiv Hq Hq0 Hs Hroot.
  rewrite optionGreeksFast_eval, Hiv, Hq. cbn [truthy_opt].
  rewrite (truthy_nonzero q Hq0). cbn [orb]. cbv zeta.
  assert (Hfast : fast_iv (h p) = s).
  { unfold fast_iv, fast_call. rewrite Hk, Hq. cbn [str_head rbind].
    rewrite Hs. reflexivity. }
  rewrite Hfast.
  assert (Hval : revalued (with_iv (h p) (Some s)) true
                 = with_npv (with_iv (h p) (Some s)) (Some q)).
  { rewrite (revalued_value _ ch rest s) by (cbn [kind iv with_iv]; auto).
    f_equal. f_equal. cbn [underlying strike expiry with_iv].
    unfold findIV, optionNPV in Hroot. rewrite Hk, blackScholes_graph in Hroot.
    cbn [rbind] in Hroot. cbv zeta in Hroot. rewrite bs_graph_item, Hq in Hroot.
    cbn [item] in Hroot. injection Hroot as Hroot. lra. }
  rewrite Hval.
  destruct (fast_outcome _); do 2 eexists; (split; [reflexivity |]);
    rewrite upd_eq; split; reflexivity.
Qed.

(** X20. With a non-empty kind, a positive underlying, strike and expiry
    and a positive [iv] supplied, both entry points store in [npv] the same
    number, the valuation at [iv] and [BASE_RATE], whatever the analytical
    library then does. *)
Theorem entry_points_agree_on_npv
    (h : heap) (p : loc) (ch : ascii) (rest : string) (sigma : R) :
  kind (h p) = String ch rest -> iv (h p) = Some sigma ->
  0 < underlying (h p) -> 0 < strike (h p) -> 0 < expiry (h p) -> 0 < sigma ->
  npv (fst (optionGreeksAuto p true h) p) =
  Some (Formula.npv (Ascii.eqb (lower ch) "c") (underlying (h p)) (strike (h p))
          (expiry (h p)) sigma BASE_RATE) /\
  npv (fst (optionGreeksFast p true h) p) = npv (fst (optionGreeksAuto p true h) p).
Proof.
  intros Hk Hiv _ _ _ Hs.
  rewrite optionGreeksAuto_eval, optionGreeksFast_eval, Hiv. cbn [truthy_opt].
  rewrite (truthy_nonzero sigma) by lra. cbn [orb]. cbv zeta.
  unfold auto_outcome. rewrite Hiv, Hk. cbn [float_ str_head rbind fst].
  rewrite upd_eq. unfold auto_record. cbn [npv]. rewrite Hk. cbn [is_call].
  split; [reflexivity |].
  rewrite (revalued_value (h p) ch rest sigma Hk Hiv).
  destruct (fast_outcome _); cbn [fst]; rewrite upd_eq; reflexivity.
Qed.

End RoundTrips.

Lemma price_round_trip_fast_witness :
  let q := Formula.call 100 100 1 (1 / 5) BASE_RATE in
  exists h' r,
    @optionGreeksFast no_root (exact_vollib (1 / 5)) 0%nat true
      (sample "call" None (Some q)) = (h', r) /\
    iv (h' 0%nat) = Some (1 / 5) /\ npv (h' 0%nat) = Some q.
Proof.
  intros q.
  apply (@price_round_trip_fast no_root (exact_vollib (1 / 5))
           (sample "call" None (Some q)) 0%nat
           "c" "all" q (1 / 5) eq_refl eq_refl eq_refl atm_call_nonzero eq_refl
           atm_call_root).
Defined.

Lemma entry_points_agree_on_npv_witness :
  let h := sample "xyz" (Some (1 / 5)) None in
  npv (fst (@optionGreeksFast no_root below_intrinsic 0%nat true h) 0%nat) =
  npv (fst (@optionGreeksAuto no_root 0%nat true h) 0%nat).
Proof.
  intros h.
  exact (proj2 (@entry_points_agree_on_npv no_root below_intrinsic h 0%nat
                  "x" "yz" (1 / 5) eq_refl eq_refl
                  (proj1 (sample_positive _ _ _ _))
                  (proj1 (proj2 (sample_positive _ _ _ _)))
                  (proj2 (proj2 (sample_positive _ _ _ _))) fifth_positive)).
Defined.

Lemma deriveGreeks2_gamma_witness :
  exists (delta_ : R -> R) (d2S : R),
    derivable_pt_lim delta_ 100 d2S /\
    deriveGreeks2 "put" 100 95 (1 / 2) (3 / 10) BASE_RATE which_default
    = Ok [PyTensor (Const d2S)].
Proof.
  destruct (deriveGreeks2_gamma "p" "ut" 100 95 (1 / 2) (3 / 10) BASE_RATE)
    as (f & d & _ & Hd & Hr); try lra.
  exists f, d. split; [exact Hd | exact Hr].
Defined.

